(** * DOLFIN process-group layer: index partitioning, collectives, mesh extraction

    A shallow embedding of [dolfin/main/MPI.cpp] and
    [dolfin/mesh/LocalMeshData.cpp].

    - [dolfin::uint] is a 32-bit unsigned integer: a [Z] in [0, 2^32) whose
      arithmetic wraps ([UInt]).
    - Code that talks to the MPI library is a value of [prog]: a tree of
      library calls, each followed by the rest of the function.  A rank runs
      such a tree up to its next collective call ([to_barrier]); a job of
      [P] ranks runs them side by side and lets the library exchange the
      buffers ([run_job], [deliver]).
    - [assert] and [error] end the function with a [failure]. *)

From Stdlib Require Import ZArith List String Lia Bool.
Import ListNotations.
Open Scope Z_scope.

(** ** 32-bit unsigned arithmetic *)

Module UInt.

Definition modulus : Z := 2 ^ 32.

Definition wrap (z : Z) : Z := z mod modulus.

Definition add (a b : Z) : Z := wrap (a + b).

Definition sub (a b : Z) : Z := wrap (a - b).

Definition mul (a b : Z) : Z := wrap (a * b).

Definition in_range (z : Z) : Prop := 0 <= z < modulus.

(** The value an [int] holds when the four bytes of a [uint] are written
    into it, and the [uint] an [int] converts to. *)
Definition to_int (u : Z) : Z := if u <? 2 ^ 31 then u else u - modulus.

Definition of_int (i : Z) : Z := wrap i.

End UInt.

(** ** Failures and library calls *)

Inductive failure : Type :=
| AssertionFailed (cond : string)   (* assert(cond) with cond false *)
| DolfinError (msg : string)        (* error(msg) *)
| DivisionByZero                    (* unsigned division by zero *)
| FabricError (code : string)       (* the MPI library rejects a call *)
| ProtocolViolation.                (* ranks disagree on the collective *)

(** The names the specification gives to the two contract failures. *)
Definition OutOfRange : failure := AssertionFailed "index < N".

Definition SizeMismatch_scatter : failure :=
  DolfinError "Number of values to scatter must be equal to the number of processes.".

Definition SizeMismatch_gather : failure :=
  AssertionFailed "values.size() == num_processes()".

(** Calls into the MPI library.  A send buffer is the list of [uint]s it
    holds; [None] is the null pointer. *)
Inductive call : Type :=
| Init_mpi                           (* SubSystemsManager::init_mpi() *)
| Comm_rank                          (* COMM_WORLD.Get_rank() *)
| Comm_size                          (* COMM_WORLD.Get_size() *)
| Comm_dup                           (* MPI_Comm_dup(MPI_COMM_WORLD, ..) *)
| Comm_free                          (* MPI_Comm_free(..) *)
| MPI_Scatter (sendbuf : option (list Z)) (sendcount recvcount root : Z)
| MPI_Allgather (sendbuf : list Z) (sendcount recvcount : Z)
| MPI_Allreduce_max (sendbuf : list Z) (count : Z).

Definition is_collective (c : call) : bool :=
  match c with
  | MPI_Scatter _ _ _ _ | MPI_Allgather _ _ _ | MPI_Allreduce_max _ _ => true
  | _ => false
  end.

(** ** Programs over the library *)

Inductive prog (A : Type) : Type :=
| Ret (a : A)
| Throw (e : failure)
| Call (c : call) (k : list Z -> prog A).

Arguments Ret {A} a.
Arguments Throw {A} e.
Arguments Call {A} c k.

Fixpoint bind {A B : Type} (p : prog A) (f : A -> prog B) : prog B :=
  match p with
  | Ret a => f a
  | Throw e => Throw e
  | Call c k => Call c (fun reply => bind (k reply) f)
  end.

Notation "x <- c1 ;; c2" := (bind c1 (fun x => c2))
  (at level 61, c1 at next level, right associativity).
Notation "c1 ;; c2" := (bind c1 (fun _ => c2))
  (at level 61, right associativity).

Definition error {A : Type} (msg : string) : prog A := Throw (DolfinError msg).

Definition assert (cond : bool) (text : string) : prog unit :=
  if cond then Ret tt else Throw (AssertionFailed text).

(** A call whose result is a scalar, a call made for its effect, and a call
    that fills a receive buffer. *)
Definition query (c : call) : prog Z := Call c (fun reply => Ret (hd 0 reply)).

Definition perform (c : call) : prog unit := Call c (fun _ => Ret tt).

Definition mpi (c : call) : prog (list Z) := Call c (fun reply => Ret reply).

Definition udiv (a b : Z) : prog Z :=
  if b =? 0 then Throw DivisionByZero else Ret (a / b).

Definition umod (a b : Z) : prog Z :=
  if b =? 0 then Throw DivisionByZero else Ret (a mod b).

Definition size {A : Type} (v : list A) : Z := Z.of_nat (List.length v).

(** ** MPI.cpp, built with MPI *)

(** [MPICommunicator comm;] and the destructor that runs when it goes out
    of scope. *)
Definition MPICommunicator_new : prog unit := perform Comm_dup.

Definition MPICommunicator_delete : prog unit := perform Comm_free.

Definition process_number : prog Z :=
  perform Init_mpi ;; query Comm_rank.

Definition num_processes : prog Z :=
  perform Init_mpi ;; query Comm_size.

Definition is_broadcaster : prog bool :=
  np <- num_processes ;;
  if 1 <? np then (pn <- process_number ;; Ret (pn =? 0)) else Ret false.

Definition is_receiver : prog bool :=
  np <- num_processes ;;
  if 1 <? np then (pn <- process_number ;; Ret (0 <? pn)) else Ret false.

Definition local_range (N : Z) : prog (Z * Z) :=
  _num_processes <- num_processes ;;
  _process_number <- process_number ;;
  n <- udiv N _num_processes ;;
  r <- umod N _num_processes ;;
  if _process_number <? r then
    let first := UInt.mul _process_number (UInt.add n 1) in
    Ret (first, UInt.add (UInt.add first n) 1)
  else
    let first := UInt.add (UInt.mul _process_number n) r in
    Ret (first, UInt.add first n).

Definition index_owner (index N : Z) : prog Z :=
  assert (index <? N) "index < N" ;;
  _num_processes <- num_processes ;;
  n <- udiv N _num_processes ;;
  r <- umod N _num_processes ;;
  if index <? UInt.mul r (UInt.add n 1) then
    udiv index (UInt.add n 1)
  else
    q <- udiv (UInt.sub index (UInt.mul r (UInt.add n 1))) n ;;
    Ret (UInt.add r q).

(** [for (i = 0; i < src.size(); i++) dst[i] = src[i]] into a fresh array. *)
Definition copy_out (src : list Z) : list Z :=
  map (fun i => nth i src 0) (seq 0 (List.length src)).

(** [dst[i] = v] on a vector. *)
Fixpoint assign (dst : list Z) (i : nat) (v : Z) : list Z :=
  match dst, i with
  | [], _ => []
  | _ :: t, O => v :: t
  | h :: t, S j => h :: assign t j v
  end.

(** [for (i = 0; i < values.size(); i++) values[i] = received[i]]. *)
Definition copy_back (values received : list Z) : list Z :=
  fold_left (fun vs i => assign vs i (nth i received 0))
            (seq 0 (List.length values)) values.

Definition scatter (values : list Z) (sending_process : Z) : prog (list Z) :=
  (* int receive_buffer = 0; *)
  MPICommunicator_new ;;
  pn <- process_number ;;
  received <-
    (if pn =? sending_process then
       np <- num_processes ;;
       if negb (size values =? np) then
         error "Number of values to scatter must be equal to the number of processes."
       else
         let send_buffer := copy_out values in
         mpi (MPI_Scatter (Some send_buffer) (size values) 1 sending_process)
     else
       mpi (MPI_Scatter None 0 1 sending_process)) ;;
  let receive_buffer := UInt.to_int (hd 0 received) in
  MPICommunicator_delete ;;
  (* values.clear(); values.push_back(receive_buffer); *)
  Ret [UInt.of_int receive_buffer].

Definition gather (values : list Z) : prog (list Z) :=
  np <- num_processes ;;
  assert (size values =? np) "values.size() == num_processes()" ;;
  pn <- process_number ;;
  let send_value := nth (Z.to_nat pn) values 0 in
  MPICommunicator_new ;;
  received_values <- mpi (MPI_Allgather [send_value] 1 1) ;;
  let values' := copy_back values received_values in
  MPICommunicator_delete ;;
  Ret values'.

Definition global_maximum (sz : Z) : prog Z :=
  (* uint recv_size = 0; *)
  MPICommunicator_new ;;
  received <- mpi (MPI_Allreduce_max [sz] 1) ;;
  let recv_size := hd 0 received in
  MPICommunicator_delete ;;
  Ret recv_size.

(** ** MPI.cpp, built without MPI (the [#else] branch) *)

Module NoMPI.

Definition process_number : prog Z := Ret 0.

Definition num_processes : prog Z := Ret 1.

Definition broadcast : prog bool := Ret false.

Definition receive : prog bool := Ret false.

Definition gather (values : list Z) : prog (list Z) :=
  error "MPI::gather() requires MPI.".

Definition global_maximum (sz : Z) : prog Z :=
  @error unit "MPI::global_maximum() requires MPI." ;; Ret 0.

Definition local_range (N : Z) : prog (Z * Z) := Ret (0, N).

Definition index_owner (i N : Z) : prog Z :=
  assert (i <? N) "i < N" ;; Ret 0.

End NoMPI.

(** ** Running one rank up to its next collective call *)

Inductive status (A : Type) : Type :=
| Returned (a : A)
| Raised (e : failure)
| Blocked (c : call) (k : list Z -> prog A).

Arguments Returned {A} a.
Arguments Raised {A} e.
Arguments Blocked {A} c k.

(** What a call that involves no other rank hands back on rank [me] of [P]. *)
Definition local_reply (P me : Z) (c : call) : list Z :=
  match c with
  | Comm_rank => [me]
  | Comm_size => [P]
  | _ => []
  end.

(** The second component is the rank's record of library calls, oldest
    first; a collective call is recorded when the rank enters it. *)
Fixpoint to_barrier {A : Type} (P me : Z) (p : prog A) (log : list call)
  : status A * list call :=
  match p with
  | Ret a => (Returned a, log)
  | Throw e => (Raised e, log)
  | Call c k =>
      if is_collective c then (Blocked c k, log ++ [c])
      else to_barrier P me (k (local_reply P me c)) (log ++ [c])
  end.

(** A function that makes no collective call, run on rank [me] of [P]. *)
Definition run_local {A : Type} (P me : Z) (p : prog A) : status A :=
  fst (to_barrier P me p []).

Definition calls_of {A : Type} (P me : Z) (p : prog A) : list call :=
  snd (to_barrier P me p []).

(** ** The collectives of the MPI library

    Modelled from the MPI standard (the library is not part of the
    repository).  [MPI_Scatter]: the root's send buffer is cut into
    consecutive segments of [sendcount] elements, segment [i] goes to rank
    [i]; the amount sent to a rank must equal the amount it receives, and the
    segment must lie inside the send buffer.  [MPI_Allgather]: every rank
    receives the contributions of all ranks, in rank order.
    [MPI_Allreduce] with [MPI_MAX]: every rank receives the maximum. *)

Definition slice (buf : list Z) (off len : Z) : list Z :=
  firstn (Z.to_nat len) (skipn (Z.to_nat off) buf).

Fixpoint contributions (reqs : list call) : option (list Z) :=
  match reqs with
  | [] => Some []
  | MPI_Allgather sendbuf sendcount recvcount :: rest =>
      if (sendcount =? recvcount) && (size sendbuf =? sendcount) then
        option_map (fun l => sendbuf ++ l) (contributions rest)
      else None
  | _ :: _ => None
  end.

Fixpoint operands (reqs : list call) : option (list Z) :=
  match reqs with
  | [] => Some []
  | MPI_Allreduce_max [v] 1 :: rest =>
      option_map (fun l => v :: l) (operands rest)
  | _ :: _ => None
  end.

Definition maximum (vs : list Z) : list Z :=
  match vs with
  | [] => []
  | v :: rest => [fold_left Z.max rest v]
  end.

(** What rank [me] finds in its receive buffer once all ranks have entered
    the collective with the requests [reqs] (in rank order). *)
Definition deliver (reqs : list call) (me : Z) (c : call) : failure + list Z :=
  match c with
  | MPI_Scatter _ _ recvcount root =>
      match nth_error reqs (Z.to_nat root) with
      | Some (MPI_Scatter (Some buf) sendcount _ root') =>
          if negb (root' =? root) then inl ProtocolViolation
          else if negb (sendcount =? recvcount) then
            inl (FabricError "MPI_ERR_TRUNCATE")
          else
            let segment := slice buf (me * sendcount) sendcount in
            if size segment =? sendcount then inr segment
            else inl (FabricError "MPI_ERR_BUFFER")
      | _ => inl ProtocolViolation
      end
  | MPI_Allgather _ _ _ =>
      match contributions reqs with
      | Some all => inr all
      | None => inl ProtocolViolation
      end
  | MPI_Allreduce_max _ _ =>
      match operands reqs with
      | Some vs => inr (maximum vs)
      | None => inl ProtocolViolation
      end
  | _ => inl ProtocolViolation
  end.

(** ** Running a job of several ranks *)

Inductive job (A : Type) : Type :=
| Finished (results : list A) (logs : list (list call))
| Aborted (e : failure) (logs : list (list call))
| OutOfFuel.

Arguments Finished {A} results logs.
Arguments Aborted {A} e logs.
Arguments OutOfFuel {A}.

(** Every rank of [ps], numbered from [me], run to its next barrier. *)
Fixpoint advance {A : Type} (P me : Z) (ps : list (prog A * list call))
  : list (status A * list call) :=
  match ps with
  | [] => []
  | (p, log) :: rest => to_barrier P me p log :: advance P (me + 1) rest
  end.

Fixpoint first_raised {A : Type} (sts : list (status A * list call))
  : option failure :=
  match sts with
  | [] => None
  | (Raised e, _) :: _ => Some e
  | _ :: rest => first_raised rest
  end.

Fixpoint all_returned {A : Type} (sts : list (status A * list call))
  : option (list A) :=
  match sts with
  | [] => Some []
  | (Returned a, _) :: rest => option_map (cons a) (all_returned rest)
  | _ :: _ => None
  end.

Fixpoint all_blocked {A : Type} (sts : list (status A * list call))
  : option (list (call * (list Z -> prog A) * list call)) :=
  match sts with
  | [] => Some []
  | (Blocked c k, log) :: rest =>
      option_map (cons (c, k, log)) (all_blocked rest)
  | _ :: _ => None
  end.

(** The ranks of [bl], numbered from [me], each resumed with what the
    library delivered to it. *)
Fixpoint resume {A : Type} (reqs : list call) (me : Z)
  (bl : list (call * (list Z -> prog A) * list call))
  : failure + list (prog A * list call) :=
  match bl with
  | [] => inr []
  | (c, k, log) :: rest =>
      match deliver reqs me c with
      | inl e => inl e
      | inr reply =>
          match resume reqs (me + 1) rest with
          | inl e => inl e
          | inr ps => inr ((k reply, log) :: ps)
          end
      end
  end.

(** [fuel] bounds the number of collective rounds.  A rank that raised
    aborts the job; ranks that disagree on whether to enter a collective
    never complete it. *)
Fixpoint run_rounds {A : Type} (fuel : nat) (P : Z)
  (ps : list (prog A * list call)) : job A :=
  let sts := advance P 0 ps in
  let logs := map snd sts in
  match first_raised sts with
  | Some e => Aborted e logs
  | None =>
      match all_returned sts with
      | Some results => Finished results logs
      | None =>
          match all_blocked sts with
          | None => Aborted ProtocolViolation logs
          | Some bl =>
              match fuel with
              | O => OutOfFuel
              | S fuel' =>
                  match resume (map (fun b => fst (fst b)) bl) 0 bl with
                  | inl e => Aborted e logs
                  | inr ps' => run_rounds fuel' P ps'
                  end
              end
          end
      end
  end.

(** The job in which rank [i] runs the [i]-th program of [ps]. *)
Definition run_job {A : Type} (fuel : nat) (ps : list (prog A)) : job A :=
  run_rounds fuel (size ps) (map (fun p => (p, [])) ps).

(** ** LocalMeshData.cpp *)

Section MeshData.

(** [double] values are only copied; [dzero] is the value a
    [std::vector<double>] is filled with when it is created with a size. *)
Variable double : Type.
Variable dzero : double.

(** Modelled from the spec: the serial mesh ([Mesh.h], [Vertex.h] and
    [Cell.h] are missing): dimensions, counts, the vertices in iteration
    order (coordinates [x()] and [index()]) and the cells in iteration order
    (the vertex indices [entities(0)], of which there are
    [num_entities(0)]). *)
Record Vertex : Type := mkVertex {
  x : list double;
  index : Z
}.

Record Cell : Type := mkCell {
  entities0 : list Z
}.

Record Mesh : Type := mkMesh {
  geometry_dim : Z;
  topology_dim : Z;
  num_vertices : Z;
  num_cells : Z;
  vertices : list Vertex;
  cells : list Cell
}.

(** The iterators visit as many entities as the mesh counts, and every
    vertex has one coordinate per geometric dimension. *)
Definition Mesh_wf (mesh : Mesh) : Prop :=
  num_vertices mesh = size (vertices mesh) /\
  num_cells mesh = size (cells mesh) /\
  Forall (fun vertex => size (x vertex) = geometry_dim mesh) (vertices mesh).

Record LocalMeshData : Type := mkLocalMeshData {
  vertex_coordinates : list (list double);
  vertex_indices : list Z;
  cell_vertices : list (list Z);
  num_global_vertices : Z;
  num_global_cells : Z;
  gdim : Z;
  tdim : Z
}.

(** The default constructor's initialiser list. *)
Definition LocalMeshData_new : LocalMeshData :=
  mkLocalMeshData [] [] [] 0 0 0 0.

Definition clear (this : LocalMeshData) : LocalMeshData :=
  mkLocalMeshData [] [] [] 0 0 0 0.

(** [std::vector<double> coordinates(gdim)] filled from [vertex->x()]. *)
Definition coordinates_of (g : Z) (vertex : Vertex) : list double :=
  fold_left (fun coordinates i => coordinates ++ [nth i (x vertex) dzero])
            (seq 0 (Z.to_nat g)) [].

Definition vertices_of (cell : Cell) : list Z :=
  fold_left (fun vs i => vs ++ [nth i (entities0 cell) 0])
            (seq 0 (List.length (entities0 cell))) [].

Definition extract_mesh_data (this : LocalMeshData) (mesh : Mesh)
  : LocalMeshData :=
  let this := clear this in
  let g := geometry_dim mesh in
  let t := topology_dim mesh in
  let nv := num_vertices mesh in
  let nc := num_cells mesh in
  let vc := fold_left (fun acc vertex => acc ++ [coordinates_of g vertex])
                      (vertices mesh) (vertex_coordinates this) in
  let vi := fold_left (fun acc vertex => acc ++ [index vertex])
                      (vertices mesh) (vertex_indices this) in
  let cv := fold_left (fun acc cell => acc ++ [vertices_of cell])
                      (cells mesh) (cell_vertices this) in
  mkLocalMeshData vc vi cv nv nc g t.

Definition broadcast_mesh_data (this : LocalMeshData) : prog LocalMeshData :=
  Ret this.

Definition receive_mesh_data (this : LocalMeshData) : prog LocalMeshData :=
  Ret this.

(** The constructor's body after its first statement. *)
Definition distribute_mesh (this : LocalMeshData) (mesh : Mesh)
  : prog LocalMeshData :=
  b <- is_broadcaster ;;
  if b then
    this' <- Ret (extract_mesh_data this mesh) ;;
    broadcast_mesh_data this'
  else
    receive_mesh_data this.

(** [LocalMeshData::LocalMeshData(const Mesh& mesh)]. *)
Definition LocalMeshData_of_mesh (mesh : Mesh) : prog LocalMeshData :=
  let this := LocalMeshData_new in
  @error unit "This should not be called" ;;
  distribute_mesh this mesh.

(** Putting the ranks' records together again, in rank order. *)
Definition reassemble (records : list LocalMeshData)
  : list (Z * list double) * list (list Z) :=
  (flat_map (fun d => combine (vertex_indices d) (vertex_coordinates d))
            records,
   flat_map cell_vertices records).

(** The vertices (index and coordinates) and cells the mesh holds. *)
Definition mesh_contents (mesh : Mesh)
  : list (Z * list double) * list (list Z) :=
  (map (fun v => (index v, x v)) (vertices mesh),
   map entities0 (cells mesh)).

End MeshData.

Arguments x {double} _.
Arguments index {double} _.
Arguments mkVertex {double} _ _.
Arguments geometry_dim {double} _.
Arguments topology_dim {double} _.
Arguments num_vertices {double} _.
Arguments num_cells {double} _.
Arguments vertices {double} _.
Arguments cells {double} _.
Arguments mkMesh {double} _ _ _ _ _ _.
Arguments Mesh_wf {double} _.
Arguments vertex_coordinates {double} _.
Arguments vertex_indices {double} _.
Arguments cell_vertices {double} _.
Arguments num_global_vertices {double} _.
Arguments num_global_cells {double} _.
Arguments gdim {double} _.
Arguments tdim {double} _.
Arguments mkLocalMeshData {double} _ _ _ _ _ _ _.
Arguments LocalMeshData_new {double}.
Arguments clear {double} _.
Arguments coordinates_of {double} _ _ _.
Arguments extract_mesh_data {double} _ _ _.
Arguments broadcast_mesh_data {double} _.
Arguments receive_mesh_data {double} _.
Arguments distribute_mesh {double} _ _ _.
Arguments LocalMeshData_of_mesh {double} _ _.
Arguments reassemble {double} _.
Arguments mesh_contents {double} _.

(** ** Vocabulary of the statements *)

(** The range rank [rank] of [P] gets from [local_range N]. *)
Definition range_of (N P rank : Z) : Z * Z :=
  match run_local P rank (local_range N) with
  | Returned range => range
  | _ => (0, 0)
  end.

(** [i] lies in the half-open range [[first, last)]. *)
Definition contains (range : Z * Z) (i : Z) : Prop :=
  fst range <= i < snd range.

Definition range_size (range : Z * Z) : Z := snd range - fst range.

(** The ranks [0 .. P-1]. *)
Definition ranks (P : Z) : list Z := map Z.of_nat (seq 0 (Z.to_nat P)).

Definition total (sizes : list Z) : Z := fold_right Z.add 0 sizes.

(** Where rank [s] starts when [N] items are dealt to [P] ranks: [N / P]
    items per rank before it, and one more for each of the first
    [N mod P]. *)
Definition start (N P s : Z) : Z := s * (N / P) + Z.min s (N mod P).

(** [f] applied to each element and its rank, the first element having
    rank [me]. *)
Fixpoint mapi {A B : Type} (f : Z -> A -> B) (me : Z) (l : list A) : list B :=
  match l with
  | [] => []
  | a :: rest => f me a :: mapi f (me + 1) rest
  end.

(** The slot each rank reads its own contribution from: element [me + i]
    of the [i]-th vector. *)
Definition own_slots (me : Z) (vals : list (list Z)) : list Z :=
  mapi (fun rank values => nth (Z.to_nat rank) values 0) me vals.

(** The calls a rank has made when it enters the all-gather. *)
Definition gather_calls (rank : Z) (values : list Z) : list call :=
  [Init_mpi; Comm_size; Init_mpi; Comm_rank; Comm_dup;
   MPI_Allgather [nth (Z.to_nat rank) values 0] 1 1].

(** What a rank hands to [MPI_Scatter], and the calls it has made when it
    enters the scatter. *)
Definition scatter_request (sender rank : Z) (values : list Z) : call :=
  if rank =? sender then MPI_Scatter (Some (copy_out values)) (size values) 1 sender
  else MPI_Scatter None 0 1 sender.

Definition scatter_calls (sender rank : Z) (values : list Z) : list call :=
  if rank =? sender then
    [Comm_dup; Init_mpi; Comm_rank; Init_mpi; Comm_size;
     scatter_request sender rank values]
  else [Comm_dup; Init_mpi; Comm_rank; scatter_request sender rank values].

(** The calls a rank has made when the job stops at the sender's size
    check. *)
Definition scatter_calls_refused (sender rank : Z) (values : list Z) : list call :=
  if rank =? sender then [Comm_dup; Init_mpi; Comm_rank; Init_mpi; Comm_size]
  else scatter_calls sender rank values.

(** A mesh of one interval, for the examples: two vertices on a line and
    the cell between them, coordinates written as integers. *)
Definition interval_mesh : Mesh Z :=
  mkMesh 1 1 2 1 [mkVertex [0] 0; mkVertex [1] 1] [mkCell [0; 1]].

(** [gather] called a second time on the vector the first call left. *)
Definition gather_twice (values : list Z) : prog (list Z) :=
  values' <- gather values ;; gather values'.

(** The calls a rank makes in [global_maximum]. *)
Definition global_maximum_calls (sz : Z) : list call :=
  [Comm_dup; MPI_Allreduce_max [sz] 1; Comm_free].

(** ** CCFEMFunctionSpace.cpp *)

Module CCFEM.

(** A line written by [log(PROGRESS, format, args...)]. *)
Inductive log_record : Type :=
| PROGRESS (format : string) (args : list Z).

(** The number a [%d] conversion shows for the unsigned argument [v] of
    [build]'s second log line: [%d] reads an [int], the low 32 bits of the
    argument taken as a signed number. *)
Definition printed_by_d (v : Z) : Z := UInt.to_int (UInt.wrap v).

Section Spaces.

(** [FunctionSpace.h] is not part of the sources: a function space is
    any value with a dimension [dim()]. *)
Variable FunctionSpace : Type.
Variable dim : FunctionSpace -> Z.

Record CCFEMFunctionSpace : Type := mkCCFEMFunctionSpace {
  _function_spaces : list FunctionSpace
}.

Definition CCFEMFunctionSpace_new : CCFEMFunctionSpace :=
  mkCCFEMFunctionSpace [].

(** [add(boost::shared_ptr<const FunctionSpace>)]; [out] is the log so
    far. *)
Definition add (this : CCFEMFunctionSpace) (function_space : FunctionSpace)
  (out : list log_record) : CCFEMFunctionSpace * list log_record :=
  let this := mkCCFEMFunctionSpace (_function_spaces this ++ [function_space]) in
  (this,
   out ++ [PROGRESS "Added function space to CCFEM space; space has %d part(s)."
                    [size (_function_spaces this)]]).

(** [add(const FunctionSpace&)] wraps the reference and calls [add]. *)
Definition add_reference (this : CCFEMFunctionSpace)
  (function_space : FunctionSpace) (out : list log_record)
  : CCFEMFunctionSpace * list log_record :=
  add this function_space out.

Definition build (this : CCFEMFunctionSpace) (out : list log_record)
  : list log_record :=
  let out := out ++ [PROGRESS "Building CCFEM function space." []] in
  fold_left
    (fun out i =>
       match nth_error (_function_spaces this) i with
       | Some V_i =>
           out ++ [PROGRESS "dim(V_%d) = %d"
                            [printed_by_d (Z.of_nat i); printed_by_d (dim V_i)]]
       | None => out
       end)
    (seq 0 (List.length (_function_spaces this))) out.

(** [add] called once per element of [spaces], in order. *)
Definition add_all (this : CCFEMFunctionSpace) (spaces : list FunctionSpace)
  (out : list log_record) : CCFEMFunctionSpace * list log_record :=
  fold_left (fun st V => add (fst st) V (snd st)) spaces (this, out).

End Spaces.

Arguments _function_spaces {FunctionSpace} _.
Arguments mkCCFEMFunctionSpace {FunctionSpace} _.
Arguments CCFEMFunctionSpace_new {FunctionSpace}.
Arguments add {FunctionSpace} _ _ _.
Arguments add_reference {FunctionSpace} _ _ _.
Arguments build {FunctionSpace} _ _ _.
Arguments add_all {FunctionSpace} _ _ _.

End CCFEM.

(** * Proofs *)

(** ** Arithmetic that does not wrap *)

Lemma wrap_small z : UInt.in_range z -> UInt.wrap z = z.
Proof. unfold UInt.in_range, UInt.wrap. intros H. now apply Z.mod_small. Qed.

Lemma div_mod_facts N P :
  0 <= N -> 1 <= P ->
  N = P * (N / P) + N mod P /\ 0 <= N mod P < P /\ 0 <= N / P <= N.
Proof.
  intros HN HP. split; [apply Z.div_mod; lia|].
  split; [apply Z.mod_pos_bound; lia|].
  split; [apply Z.div_pos; lia|].
  apply Z.div_le_upper_bound; nia.
Qed.

Lemma start_0 N P : 0 <= N -> 1 <= P -> start N P 0 = 0.
Proof.
  intros HN HP. unfold start.
  destruct (div_mod_facts N P HN HP) as (_ & Hr & _). lia.
Qed.

Lemma start_P N P : 0 <= N -> 1 <= P -> start N P P = N.
Proof.
  intros HN HP. unfold start.
  destruct (div_mod_facts N P HN HP) as (E & Hr & _). lia.
Qed.

Lemma start_step N P s :
  0 <= N -> 1 <= P -> 0 <= s ->
  start N P (s + 1) - start N P s =
  if s <? N mod P then N / P + 1 else N / P.
Proof.
  intros HN HP Hs. unfold start.
  destruct (div_mod_facts N P HN HP) as (_ & Hr & _).
  destruct (Z.ltb_spec s (N mod P)); lia.
Qed.

Lemma start_mono N P s t :
  0 <= N -> 1 <= P -> 0 <= s <= t -> start N P s <= start N P t.
Proof.
  intros HN HP Hst. unfold start.
  destruct (div_mod_facts N P HN HP) as (_ & _ & Hn).
  assert (s * (N / P) <= t * (N / P)) by nia. lia.
Qed.

Lemma start_le_N N P s :
  0 <= N -> 1 <= P -> 0 <= s <= P -> 0 <= start N P s <= N.
Proof.
  intros HN HP Hs. split.
  - rewrite <- (start_0 N P HN HP). apply start_mono; lia.
  - rewrite <- (start_P N P HN HP) at 2. apply start_mono; lia.
Qed.

(** Two ranks whose ranges share an index are the same rank. *)
Lemma start_disjoint N P s t i :
  0 <= N -> 1 <= P -> 0 <= s -> 0 <= t ->
  start N P s <= i < start N P (s + 1) ->
  start N P t <= i < start N P (t + 1) ->
  s = t.
Proof.
  intros HN HP Hs Ht Hi Hj.
  destruct (Z.lt_trichotomy s t) as [L | [E | L]]; [exfalso | exact E | exfalso].
  - assert (start N P (s + 1) <= start N P t) by (apply start_mono; lia). lia.
  - assert (start N P (t + 1) <= start N P s) by (apply start_mono; lia). lia.
Qed.

(** ** [local_range] and [index_owner] on one rank *)

Lemma run_local_range N P me :
  0 <= N < UInt.modulus -> 1 <= P -> 0 <= me < P ->
  run_local P me (local_range N) =
  Returned (start N P me, start N P (me + 1)).
Proof.
  intros HN HP Hme.
  destruct (div_mod_facts N P (proj1 HN) HP) as (E & Hr & Hn).
  unfold run_local, local_range, udiv, umod. cbn.
  destruct (Z.eqb_spec P 0) as [|_]; [lia|]. cbn.
  unfold start, UInt.mul, UInt.add.
  set (n := N / P) in *. set (r := N mod P) in *.
  destruct (Z.ltb_spec me r) as [L | G]; cbn.
  - assert (B : (me + 1) * (n + 1) <= N) by nia.
    rewrite (wrap_small (n + 1)) by (unfold UInt.in_range; nia).
    rewrite (wrap_small (me * (n + 1))) by (unfold UInt.in_range; nia).
    rewrite (wrap_small (me * (n + 1) + n)) by (unfold UInt.in_range; nia).
    rewrite (wrap_small (me * (n + 1) + n + 1)) by (unfold UInt.in_range; nia).
    f_equal. f_equal; lia.
  - assert (B : (me + 1) * n + r <= N) by nia.
    rewrite (wrap_small (me * n)) by (unfold UInt.in_range; nia).
    rewrite (wrap_small (me * n + r)) by (unfold UInt.in_range; nia).
    rewrite (wrap_small (me * n + r + n)) by (unfold UInt.in_range; nia).
    f_equal. f_equal; lia.
Qed.

Lemma range_of_start N P rank :
  0 <= N < UInt.modulus -> 1 <= P -> 0 <= rank < P ->
  range_of N P rank = (start N P rank, start N P (rank + 1)).
Proof.
  intros HN HP Hr. unfold range_of. now rewrite run_local_range.
Qed.

Lemma mul_remainder_no_wrap N P :
  0 <= N < UInt.modulus -> 1 <= P ->
  UInt.mul (N mod P) (UInt.add (N / P) 1) = N mod P * (N / P + 1).
Proof.
  intros HN HP.
  destruct (div_mod_facts N P (proj1 HN) HP) as (E & Hr & Hn).
  unfold UInt.mul, UInt.add.
  destruct (Z.eq_dec (N mod P) 0) as [Z0 | NZ].
  - rewrite Z0. reflexivity.
  - assert (B : N mod P * (N / P + 1) <= N) by nia.
    rewrite (wrap_small (N / P + 1)) by (unfold UInt.in_range; nia).
    apply wrap_small. unfold UInt.in_range. nia.
Qed.

Lemma run_index_owner N P me i :
  0 <= N < UInt.modulus -> 1 <= P -> 0 <= i < N ->
  exists owner,
    run_local P me (index_owner i N) = Returned owner /\
    0 <= owner < P /\
    start N P owner <= i < start N P (owner + 1).
Proof.
  intros HN HP Hi.
  destruct (div_mod_facts N P (proj1 HN) HP) as (E & Hr & Hn).
  unfold run_local, index_owner, assert, udiv, umod. cbn.
  destruct (Z.ltb_spec i N) as [_ | ]; [|lia]. cbn.
  destruct (Z.eqb_spec P 0) as [|_]; [lia|]. cbn.
  rewrite (mul_remainder_no_wrap N P HN HP).
  unfold start.
  set (n := N / P) in *. set (r := N mod P) in *.
  destruct (Z.ltb_spec i (r * (n + 1))) as [L | G].
  - (* one of the first r ranks, each owning n + 1 indices *)
    assert (B : r * (n + 1) <= N) by nia.
    unfold UInt.add. rewrite (wrap_small (n + 1)) by (unfold UInt.in_range; nia).
    unfold udiv. destruct (Z.eqb_spec (n + 1) 0) as [|_]; [lia|]. cbn.
    exists (i / (n + 1)).
    assert (Q0 : 0 <= i / (n + 1)) by (apply Z.div_pos; lia).
    assert (Q1 : i / (n + 1) < r) by (apply Z.div_lt_upper_bound; nia).
    pose proof (Z.div_mod i (n + 1) ltac:(lia)) as D.
    pose proof (Z.mod_pos_bound i (n + 1) ltac:(lia)) as M.
    split; [reflexivity|]. split; [lia|].
    set (q := i / (n + 1)) in *. nia.
  - (* one of the remaining ranks, each owning n indices *)
    assert (n <> 0) by nia.
    unfold UInt.sub.
    rewrite (wrap_small (i - r * (n + 1))) by (unfold UInt.in_range; nia).
    unfold udiv. destruct (Z.eqb_spec n 0) as [|_]; [lia|]. cbn.
    set (q := (i - r * (n + 1)) / n).
    assert (Q0 : 0 <= q) by (apply Z.div_pos; lia).
    assert (Q1 : q < P - r) by (apply Z.div_lt_upper_bound; nia).
    pose proof (Z.div_mod (i - r * (n + 1)) n ltac:(lia)) as D.
    pose proof (Z.mod_pos_bound (i - r * (n + 1)) n ltac:(lia)) as M.
    fold q in D.
    exists (r + q). unfold UInt.add.
    rewrite (wrap_small (r + q)) by (unfold UInt.in_range; nia).
    split; [reflexivity|]. split; [lia|]. nia.
Qed.

Lemma total_app (l1 l2 : list Z) : total (l1 ++ l2) = total l1 + total l2.
Proof. unfold total. induction l1 as [|a l1 IH]; simpl; lia. Qed.

Lemma in_ranks P rank : In rank (ranks P) <-> 0 <= rank < P.
Proof.
  unfold ranks. rewrite in_map_iff. split.
  - intros (k & <- & Hk). apply in_seq in Hk. lia.
  - intros H. exists (Z.to_nat rank). split; [lia|]. apply in_seq. lia.
Qed.

(** The sizes of the first [k] ranges add up to where rank [k] starts. *)
Lemma sizes_telescope N P (k : nat) :
  0 <= N -> 1 <= P ->
  total (map (fun rank => start N P (rank + 1) - start N P rank)
             (map Z.of_nat (seq 0 k)))
  = start N P (Z.of_nat k).
Proof.
  intros HN HP. induction k as [|k IH].
  - change (0 = start N P 0). symmetry. now apply start_0.
  - rewrite seq_S, !map_app, total_app, IH.
    replace (Z.of_nat (S k)) with (Z.of_nat k + 1) by lia.
    unfold total. simpl. lia.
Qed.

(** ** The index partitioner *)

(** C1: for [N] items and [P] ranks, [index_owner] maps every index
    [i < N] to a rank below [P] whose [local_range] contains [i], and no
    other rank's [local_range] contains [i]. *)
Theorem index_owner_inverts_local_range (N P me i : Z) :
  0 <= N < UInt.modulus -> 1 <= P -> 0 <= me < P -> 0 <= i < N ->
  exists owner,
    run_local P me (index_owner i N) = Returned owner /\
    0 <= owner < P /\
    run_local P owner (local_range N) = Returned (range_of N P owner) /\
    contains (range_of N P owner) i /\
    forall rank, 0 <= rank < P ->
      run_local P rank (local_range N) = Returned (range_of N P rank) /\
      (contains (range_of N P rank) i -> rank = owner).
Proof.
  intros HN HP Hme Hi.
  destruct (run_index_owner N P me i HN HP Hi) as (owner & Run & Ho & Hin).
  exists owner. split; [exact Run|]. split; [exact Ho|].
  rewrite (range_of_start N P owner) by assumption.
  split; [now apply run_local_range|]. split; [exact Hin|].
  intros rank Hr. rewrite (range_of_start N P rank) by assumption.
  split; [now apply run_local_range|].
  unfold contains; cbn. intros Hc.
  apply (start_disjoint N P rank owner i); lia.
Qed.

Lemma index_owner_inverts_local_range_witness :
  exists owner,
    run_local 3 0 (index_owner 6 10) = Returned owner /\
    0 <= owner < 3 /\
    run_local 3 owner (local_range 10) = Returned (range_of 10 3 owner) /\
    contains (range_of 10 3 owner) 6 /\
    forall rank, 0 <= rank < 3 ->
      run_local 3 rank (local_range 10) = Returned (range_of 10 3 rank) /\
      (contains (range_of 10 3 rank) 6 -> rank = owner).
Proof.
  apply (index_owner_inverts_local_range 10 3 0 6);
    unfold UInt.modulus; lia.
Defined.

(** C2: the ranges [local_range] gives to ranks [0 .. P-1] tile [[0, N)]:
    the first starts at 0, each starts where the one before ends, the last
    ends at [N], every index below [N] lies in exactly one of them and the
    sizes add up to [N]; the first [N mod P] ranks get [ceil (N / P)] items
    and the others [floor (N / P)], so two sizes differ by at most 1. *)
Theorem local_range_tiles (N P : Z) :
  0 <= N < UInt.modulus -> 1 <= P ->
  (forall rank, 0 <= rank < P ->
     run_local P rank (local_range N) = Returned (range_of N P rank)) /\
  fst (range_of N P 0) = 0 /\
  (forall rank, 0 <= rank < P - 1 ->
     snd (range_of N P rank) = fst (range_of N P (rank + 1))) /\
  snd (range_of N P (P - 1)) = N /\
  (forall i, 0 <= i < N ->
     exists rank, 0 <= rank < P /\ contains (range_of N P rank) i /\
       forall other, 0 <= other < P ->
         contains (range_of N P other) i -> other = rank) /\
  total (map (fun rank => range_size (range_of N P rank)) (ranks P)) = N /\
  (forall rank, 0 <= rank < P ->
     range_size (range_of N P rank) =
     if rank <? N mod P then (N + P - 1) / P else N / P) /\
  (forall r1 r2, 0 <= r1 < P -> 0 <= r2 < P ->
     Z.abs (range_size (range_of N P r1) - range_size (range_of N P r2)) <= 1).
Proof.
  intros HN HP.
  destruct (div_mod_facts N P (proj1 HN) HP) as (E & Hr & Hn).
  assert (Size : forall rank, 0 <= rank < P ->
            range_size (range_of N P rank) =
            if rank <? N mod P then N / P + 1 else N / P).
  { intros rank H. rewrite range_of_start by assumption.
    unfold range_size; cbn. apply start_step; lia. }
  split.
  { intros rank H. rewrite range_of_start by assumption.
    now apply run_local_range. }
  split.
  { rewrite range_of_start by lia. cbn. apply start_0; lia. }
  split.
  { intros rank H. rewrite !range_of_start by lia. reflexivity. }
  split.
  { rewrite range_of_start by lia. cbn.
    replace (P - 1 + 1) with P by lia. apply start_P; lia. }
  split.
  { intros i Hi.
    destruct (run_index_owner N P 0 i HN HP Hi) as (owner & _ & Ho & Hin).
    exists owner. split; [exact Ho|].
    rewrite range_of_start by assumption. split; [exact Hin|].
    intros other Hother. rewrite range_of_start by assumption.
    unfold contains; cbn. intros Hc.
    apply (start_disjoint N P other owner i); lia. }
  split.
  { rewrite (map_ext_in _ (fun rank => start N P (rank + 1) - start N P rank)).
    - unfold ranks. rewrite sizes_telescope by lia.
      rewrite Z2Nat.id by lia. apply start_P; lia.
    - intros rank Hin. apply in_ranks in Hin.
      rewrite range_of_start by assumption. reflexivity. }
  split.
  { intros rank H. rewrite (Size rank H).
    destruct (Z.ltb_spec rank (N mod P)) as [L | G]; [|reflexivity].
    apply (Z.div_unique _ _ _ (N mod P - 1)); lia. }
  intros r1 r2 H1 H2. rewrite (Size r1 H1), (Size r2 H2).
  destruct (r1 <? N mod P), (r2 <? N mod P); lia.
Qed.

Lemma local_range_tiles_witness :
  fst (range_of 10 3 0) = 0 /\ snd (range_of 10 3 2) = 10 /\
  total (map (fun rank => range_size (range_of 10 3 rank)) (ranks 3)) = 10.
Proof.
  destruct (local_range_tiles 10 3) as (_ & F & _ & L & _ & T & _);
    [unfold UInt.modulus; lia | lia |].
  exact (conj F (conj L T)).
Defined.

(** C3: [index_owner] asked about an index that is not below [N] stops at
    its assertion [index < N], before any call to the library, and returns no
    rank; so does the variant built without MPI, at its assertion [i < N]. *)
Theorem index_owner_out_of_range (N P me i : Z) :
  N <= i ->
  run_local P me (index_owner i N) = Raised OutOfRange /\
  calls_of P me (index_owner i N) = [] /\
  run_local P me (NoMPI.index_owner i N) = Raised (AssertionFailed "i < N").
Proof.
  intros H.
  unfold run_local, calls_of, index_owner, NoMPI.index_owner, assert. cbn.
  destruct (Z.ltb_spec i N) as [L | _]; [lia|]. cbn. repeat split.
Qed.

Lemma index_owner_out_of_range_witness :
  run_local 3 0 (index_owner 10 10) = Raised OutOfRange /\
  calls_of 3 0 (index_owner 10 10) = [] /\
  run_local 3 0 (NoMPI.index_owner 10 10) = Raised (AssertionFailed "i < N").
Proof. apply (index_owner_out_of_range 10 3 0 10). lia. Defined.

(** ** Roles *)

(** C10: on rank [me] of [P], [is_broadcaster] and [is_receiver] are never
    both true; with one process both are false; with more than one exactly
    one is true, [is_broadcaster] on rank 0 and [is_receiver] on every other
    rank. *)
Theorem roles_partition_ranks (P me : Z) :
  1 <= P -> 0 <= me < P ->
  exists b r,
    run_local P me is_broadcaster = Returned b /\
    run_local P me is_receiver = Returned r /\
    b && r = false /\
    (P = 1 -> b = false /\ r = false) /\
    (1 < P -> xorb b r = true /\ (b = true <-> me = 0) /\ (r = true <-> 0 < me)).
Proof.
  intros HP Hme. unfold run_local, is_broadcaster, is_receiver. cbn.
  destruct (Z.ltb_spec 1 P) as [L | G]; cbn.
  - exists (me =? 0), (0 <? me).
    destruct (Z.eqb_spec me 0), (Z.ltb_spec 0 me); try lia; cbn;
      repeat split; intros; (lia || discriminate || reflexivity).
  - exists false, false. repeat split; intros; (lia || discriminate).
Qed.

Lemma roles_partition_ranks_witness :
  exists b r,
    run_local 4 2 is_broadcaster = Returned b /\
    run_local 4 2 is_receiver = Returned r /\
    b && r = false /\
    (4 = 1 -> b = false /\ r = false) /\
    (1 < 4 -> xorb b r = true /\ (b = true <-> 2 = 0) /\ (r = true <-> 0 < 2)).
Proof. apply (roles_partition_ranks 4 2); lia. Defined.

(** ** Loops over vectors *)

(** A loop that [push_back]s one element per iteration appends the mapped
    sequence. *)
Lemma fold_left_push_back {A B : Type} (f : A -> B) (l : list A) (init : list B) :
  fold_left (fun acc a => acc ++ [f a]) l init = init ++ map f l.
Proof.
  revert init. induction l as [|a l IH]; intros init; simpl.
  - now rewrite app_nil_r.
  - rewrite IH, <- app_assoc. reflexivity.
Qed.

(** Reading a vector element by element gives the vector back. *)
Lemma map_nth_seq_id {A : Type} (d : A) (l : list A) :
  map (fun i => nth i l d) (seq 0 (List.length l)) = l.
Proof.
  induction l as [|a l IH]; simpl; [reflexivity|].
  f_equal. rewrite <- seq_shift, map_map. exact IH.
Qed.

Lemma copy_out_id (src : list Z) : copy_out src = src.
Proof. apply map_nth_seq_id. Qed.

(** ** Running jobs *)

Lemma run_rounds_raised {A : Type} (fuel : nat) (P : Z)
  (ps : list (prog A * list call)) (e : failure) :
  first_raised (advance P 0 ps) = Some e ->
  run_rounds fuel P ps = Aborted e (map snd (advance P 0 ps)).
Proof. intros H. destruct fuel; simpl; rewrite H; reflexivity. Qed.

Lemma run_rounds_returned {A : Type} (fuel : nat) (P : Z)
  (ps : list (prog A * list call)) (results : list A) :
  first_raised (advance P 0 ps) = None ->
  all_returned (advance P 0 ps) = Some results ->
  run_rounds fuel P ps = Finished results (map snd (advance P 0 ps)).
Proof. intros H1 H2. destruct fuel; simpl; rewrite H1, H2; reflexivity. Qed.

Lemma size_repeat {A : Type} (a : A) (n : nat) : size (repeat a n) = Z.of_nat n.
Proof. unfold size. now rewrite repeat_length. Qed.

Lemma size_map {A B : Type} (f : A -> B) (l : list A) : size (map f l) = size l.
Proof. unfold size. now rewrite length_map. Qed.

(** ** Mesh extraction and the distribution driver *)

Section MeshDataProofs.

Context {double : Type} (dzero : double).

Implicit Types (mesh : Mesh double) (this : LocalMeshData double).

Lemma coordinates_of_length (g : Z) (v : Vertex double) :
  List.length (coordinates_of dzero g v) = Z.to_nat g.
Proof.
  unfold coordinates_of.
  rewrite (fold_left_push_back (fun i => nth i (x v) dzero)).
  simpl. now rewrite length_map, length_seq.
Qed.

Lemma coordinates_of_exact (g : Z) (v : Vertex double) :
  size (x v) = g -> coordinates_of dzero g v = x v.
Proof.
  intros <-. unfold coordinates_of, size.
  rewrite (fold_left_push_back (fun i => nth i (x v) dzero)).
  rewrite Nat2Z.id. simpl. apply map_nth_seq_id.
Qed.

Lemma vertices_of_exact (c : Cell) : vertices_of c = entities0 c.
Proof.
  unfold vertices_of.
  rewrite (fold_left_push_back (fun i => nth i (entities0 c) 0)).
  simpl. apply map_nth_seq_id.
Qed.

(** What [extract_mesh_data] leaves in the record, whatever it held. *)
Lemma extract_mesh_data_fields this mesh :
  extract_mesh_data dzero this mesh =
  mkLocalMeshData
    (map (coordinates_of dzero (geometry_dim mesh)) (vertices mesh))
    (map index (vertices mesh))
    (map entities0 (cells mesh))
    (num_vertices mesh) (num_cells mesh)
    (geometry_dim mesh) (topology_dim mesh).
Proof.
  unfold extract_mesh_data, clear. cbn [vertex_coordinates vertex_indices cell_vertices].
  rewrite (fold_left_push_back (coordinates_of dzero (geometry_dim mesh))).
  rewrite (fold_left_push_back index).
  rewrite (fold_left_push_back vertices_of). simpl.
  f_equal. apply map_ext. intros c. apply vertices_of_exact.
Qed.

(** C9: after [extract_mesh_data], whatever the record held before, there
    is one coordinate tuple and one index per counted vertex, each tuple has
    [gdim] entries, there is one vertex list per counted cell, and the four
    scalars are the mesh's dimensions and counts. *)
Theorem extract_mesh_data_shape this mesh :
  Mesh_wf mesh ->
  let d := extract_mesh_data dzero this mesh in
  size (vertex_coordinates d) = num_global_vertices d /\
  Forall (fun coordinates => size coordinates = gdim d) (vertex_coordinates d) /\
  size (vertex_indices d) = num_global_vertices d /\
  size (cell_vertices d) = num_global_cells d /\
  gdim d = geometry_dim mesh /\
  tdim d = topology_dim mesh /\
  num_global_vertices d = num_vertices mesh /\
  num_global_cells d = num_cells mesh.
Proof.
  intros (Hv & Hc & Hx). cbv zeta. rewrite extract_mesh_data_fields. cbn.
  rewrite !size_map. repeat split; try (symmetry; assumption).
  apply Forall_map. revert Hx. apply Forall_impl. intros v Hlen.
  now rewrite coordinates_of_exact.
Qed.

Lemma reassemble_root_only (d : LocalMeshData double) (k : nat) :
  reassemble (d :: repeat LocalMeshData_new k) =
  (combine (vertex_indices d) (vertex_coordinates d), cell_vertices d).
Proof.
  unfold reassemble. simpl.
  assert (E1 : flat_map (fun d : LocalMeshData double =>
                 combine (vertex_indices d) (vertex_coordinates d))
                 (repeat LocalMeshData_new k) = []).
  { induction k; simpl; auto. }
  assert (E2 : flat_map (@cell_vertices double) (repeat LocalMeshData_new k) = []).
  { induction k; simpl; auto. }
  now rewrite E1, E2, !app_nil_r.
Qed.

Lemma combine_map_both {A B C : Type} (f : A -> B) (g : A -> C) (l : list A) :
  combine (map f l) (map g l) = map (fun a => (f a, g a)) l.
Proof. induction l as [|a l IH]; simpl; [reflexivity | now rewrite IH]. Qed.

Lemma reassemble_extracted this mesh (k : nat) :
  Mesh_wf mesh ->
  reassemble (extract_mesh_data dzero this mesh :: repeat LocalMeshData_new k)
  = mesh_contents mesh.
Proof.
  intros (_ & _ & Hx). rewrite reassemble_root_only, extract_mesh_data_fields.
  cbn. unfold mesh_contents. f_equal.
  rewrite combine_map_both. apply map_ext_in. intros v Hin.
  rewrite Forall_forall in Hx. now rewrite coordinates_of_exact by auto.
Qed.

Lemma advance_refused (P me : Z) mesh (k : nat) :
  advance P me
    (map (fun p => (p, [])) (repeat (LocalMeshData_of_mesh dzero mesh) k)) =
  repeat (Raised (DolfinError "This should not be called"), []) k.
Proof.
  revert me. induction k as [|k IH]; intros me; cbn [repeat map advance].
  - reflexivity.
  - now rewrite IH.
Qed.


(** C8, as the code has it: the driver redistributes nothing.  For every
    mesh and every number of ranks, each rank's construction of its record
    from the mesh is refused at the constructor's first statement, before any
    call to the library: the job aborts with the error "This should not be
    called" and never finishes with records that could be reassembled. *)
Theorem driver_redistributes_nothing mesh (workers fuel : nat) :
  run_job fuel (repeat (LocalMeshData_of_mesh dzero mesh) (S workers))
    = Aborted (DolfinError "This should not be called")
              (repeat [] (S workers)) /\
  (forall records logs,
     run_job fuel (repeat (LocalMeshData_of_mesh dzero mesh) (S workers))
       <> Finished records logs).
Proof.
  assert (Run : run_job fuel
                  (repeat (LocalMeshData_of_mesh dzero mesh) (S workers))
                = Aborted (DolfinError "This should not be called")
                          (repeat [] (S workers))).
  { unfold run_job. rewrite run_rounds_raised with
      (e := DolfinError "This should not be called");
      rewrite advance_refused; [|reflexivity].
    now rewrite map_repeat. }
  split; [exact Run|].
  intros records logs H. rewrite Run in H. discriminate H.
Qed.

End MeshDataProofs.

Lemma extract_mesh_data_shape_witness :
  Mesh_wf interval_mesh /\
  let d := extract_mesh_data 0 LocalMeshData_new interval_mesh in
  size (vertex_coordinates d) = num_global_vertices d /\
  Forall (fun coordinates => size coordinates = gdim d) (vertex_coordinates d) /\
  size (vertex_indices d) = num_global_vertices d /\
  size (cell_vertices d) = num_global_cells d /\
  gdim d = geometry_dim interval_mesh /\
  tdim d = topology_dim interval_mesh /\
  num_global_vertices d = num_vertices interval_mesh /\
  num_global_cells d = num_cells interval_mesh.
Proof.
  split; [repeat split; repeat constructor|].
  apply (extract_mesh_data_shape 0 LocalMeshData_new interval_mesh).
  repeat split; repeat constructor.
Defined.


(** C8 fails as stated: with one process the driver gives back nothing to
    reassemble, since construction is refused; and the statements after the
    refusal leave the only rank with an empty record, so that the vertices
    and the cell of [interval_mesh] are lost. *)
Lemma round_trip_fails_single_process :
  ~ (exists fuel records logs,
       run_job fuel (repeat (LocalMeshData_of_mesh 0 interval_mesh) 1)
         = Finished records logs /\
       reassemble records = mesh_contents interval_mesh) /\
  ~ (exists fuel records logs,
       run_job fuel (repeat (distribute_mesh 0 LocalMeshData_new interval_mesh) 1)
         = Finished records logs /\
       reassemble records = mesh_contents interval_mesh).
Proof.
  split.
  - intros (fuel & records & logs & H & _). unfold run_job in H.
    rewrite run_rounds_raised
      with (e := DolfinError "This should not be called") in H
      by reflexivity.
    discriminate H.
  - intros (fuel & records & logs & H & R). unfold run_job in H.
    rewrite (run_rounds_returned fuel _ _ [LocalMeshData_new]) in H
      by reflexivity.
    injection H as <- _. discriminate R.
Qed.

(** ** One round of a collective, rank by rank *)

Section Rounds.

Context {A V : Type}.

Implicit Types (vs : list V) (me r : Z) (n : nat).

(** Hypotheses speak of the element [v] at position [n], whose rank is
    [me + n]. *)
Lemma mapi_ext_pos {B : Type} (f g : Z -> V -> B) me vs :
  (forall n v, nth_error vs n = Some v ->
     f (me + Z.of_nat n) v = g (me + Z.of_nat n) v) ->
  mapi f me vs = mapi g me vs.
Proof.
  revert me. induction vs as [|v vs IH]; intros me H; simpl; [reflexivity|].
  f_equal.
  - specialize (H 0%nat v eq_refl). now rewrite Z.add_0_r in H.
  - apply IH. intros n w Hw. specialize (H (S n) w Hw).
    now replace (me + 1 + Z.of_nat n) with (me + Z.of_nat (S n)) by lia.
Qed.

Lemma nth_error_mapi {B : Type} (f : Z -> V -> B) me vs n v :
  nth_error vs n = Some v ->
  nth_error (mapi f me vs) n = Some (f (me + Z.of_nat n) v).
Proof.
  revert me n. induction vs as [|w vs IH]; intros me [|n] H;
    try discriminate H; simpl in *.
  - injection H as ->. now rewrite Z.add_0_r.
  - rewrite (IH (me + 1) n H). do 2 f_equal. lia.
Qed.

Lemma map_mapi {B C : Type} (h : B -> C) (f : Z -> V -> B) me vs :
  map h (mapi f me vs) = mapi (fun r v => h (f r v)) me vs.
Proof.
  revert me. induction vs as [|v vs IH]; intros me; simpl;
    [reflexivity | now rewrite IH].
Qed.

Lemma mapi_const {B : Type} (f : V -> B) me vs :
  mapi (fun _ v => f v) me vs = map f vs.
Proof.
  revert me. induction vs as [|v vs IH]; intros me; simpl;
    [reflexivity | now rewrite IH].
Qed.

Lemma advance_mapi (P : Z) (g : Z -> V -> prog A * list call) me vs :
  advance P me (mapi g me vs) =
  mapi (fun r v => to_barrier P r (fst (g r v)) (snd (g r v))) me vs.
Proof.
  revert me. induction vs as [|v vs IH]; intros me; simpl; [reflexivity|].
  destruct (g me v) as [p log]. now rewrite IH.
Qed.

Variables (c : Z -> V -> call) (k : Z -> V -> list Z -> prog A)
          (lg : Z -> V -> list call).

Lemma first_raised_blocked me vs :
  first_raised (mapi (fun r v => (Blocked (c r v) (k r v), lg r v)) me vs) = None.
Proof. revert me. induction vs; intros me; simpl; auto. Qed.

Lemma all_returned_blocked me vs :
  vs <> [] ->
  all_returned (mapi (fun r v => (Blocked (c r v) (k r v), lg r v)) me vs) = None.
Proof. destruct vs; [congruence | reflexivity]. Qed.

Lemma all_blocked_blocked me vs :
  all_blocked (mapi (fun r v => (Blocked (c r v) (k r v), lg r v)) me vs) =
  Some (mapi (fun r v => (c r v, k r v, lg r v)) me vs).
Proof.
  revert me. induction vs as [|v vs IH]; intros me; simpl;
    [reflexivity | now rewrite IH].
Qed.

Lemma requests_blocked me vs :
  map (fun b : call * (list Z -> prog A) * list call => fst (fst b))
      (mapi (fun r v => (c r v, k r v, lg r v)) me vs) = mapi c me vs.
Proof. rewrite map_mapi. reflexivity. Qed.

Lemma resume_delivered (reqs : list call) (rep : Z -> V -> list Z) me vs :
  (forall n v, nth_error vs n = Some v ->
     deliver reqs (me + Z.of_nat n) (c (me + Z.of_nat n) v)
     = inr (rep (me + Z.of_nat n) v)) ->
  resume reqs me (mapi (fun r v => (c r v, k r v, lg r v)) me vs) =
  inr (mapi (fun r v => (k r v (rep r v), lg r v)) me vs).
Proof.
  revert me. induction vs as [|v vs IH]; intros me H; simpl; [reflexivity|].
  pose proof (H 0%nat v eq_refl) as H0. rewrite Z.add_0_r in H0. rewrite H0.
  rewrite IH; [reflexivity|].
  intros n w Hw. specialize (H (S n) w Hw).
  now replace (me + 1 + Z.of_nat n) with (me + Z.of_nat (S n)) by lia.
Qed.

(** The state of a job whose ranks have all entered a collective. *)
Lemma run_rounds_blocked (fuel : nat) (P : Z)
  (g : Z -> V -> prog A * list call) vs :
  vs <> [] ->
  (forall n v, nth_error vs n = Some v ->
     to_barrier P (Z.of_nat n) (fst (g (Z.of_nat n) v)) (snd (g (Z.of_nat n) v))
     = (Blocked (c (Z.of_nat n) v) (k (Z.of_nat n) v), lg (Z.of_nat n) v)) ->
  run_rounds (S fuel) P (mapi g 0 vs) =
  match resume (mapi c 0 vs) 0 (mapi (fun r v => (c r v, k r v, lg r v)) 0 vs) with
  | inl e => Aborted e (mapi lg 0 vs)
  | inr ps' => run_rounds fuel P ps'
  end.
Proof.
  intros Hne Hb. cbn [run_rounds].
  rewrite advance_mapi.
  rewrite (mapi_ext_pos _ (fun r v => (Blocked (c r v) (k r v), lg r v)))
    by exact Hb.
  rewrite first_raised_blocked, (all_returned_blocked 0 vs Hne),
    all_blocked_blocked, requests_blocked, map_mapi.
  reflexivity.
Qed.

(** When every rank reaches the same collective and the library serves
    each of them, the job goes on with every rank resumed. *)
Lemma run_rounds_collective (fuel : nat) (P : Z)
  (g : Z -> V -> prog A * list call) (rep : Z -> V -> list Z) vs :
  vs <> [] ->
  (forall n v, nth_error vs n = Some v ->
     to_barrier P (Z.of_nat n) (fst (g (Z.of_nat n) v)) (snd (g (Z.of_nat n) v))
     = (Blocked (c (Z.of_nat n) v) (k (Z.of_nat n) v), lg (Z.of_nat n) v)) ->
  (forall n v, nth_error vs n = Some v ->
     deliver (mapi c 0 vs) (Z.of_nat n) (c (Z.of_nat n) v)
     = inr (rep (Z.of_nat n) v)) ->
  run_rounds (S fuel) P (mapi g 0 vs) =
  run_rounds fuel P (mapi (fun r v => (k r v (rep r v), lg r v)) 0 vs).
Proof.
  intros Hne Hb Hd. rewrite (run_rounds_blocked fuel P g vs Hne Hb).
  now rewrite (resume_delivered _ rep 0 vs Hd).
Qed.

(** When the library rejects the call of the first rank, the job aborts. *)
Lemma run_rounds_rejected (fuel : nat) (P : Z)
  (g : Z -> V -> prog A * list call) (e : failure) vs :
  (forall n v, nth_error vs n = Some v ->
     to_barrier P (Z.of_nat n) (fst (g (Z.of_nat n) v)) (snd (g (Z.of_nat n) v))
     = (Blocked (c (Z.of_nat n) v) (k (Z.of_nat n) v), lg (Z.of_nat n) v)) ->
  (forall v, nth_error vs 0 = Some v ->
     deliver (mapi c 0 vs) 0 (c 0 v) = inl e) ->
  vs <> [] ->
  run_rounds (S fuel) P (mapi g 0 vs) = Aborted e (mapi lg 0 vs).
Proof.
  intros Hb Hd Hne. rewrite (run_rounds_blocked fuel P g vs Hne Hb).
  destruct vs as [|v vs']; [congruence|].
  specialize (Hd v eq_refl). cbn [mapi resume] in *. now rewrite Hd.
Qed.

(** When every rank returns, the job is finished. *)
Lemma run_rounds_all_return (fuel : nat) (P : Z)
  (g : Z -> V -> prog A * list call) (res : Z -> V -> A) vs :
  (forall n v, nth_error vs n = Some v ->
     to_barrier P (Z.of_nat n) (fst (g (Z.of_nat n) v)) (snd (g (Z.of_nat n) v))
     = (Returned (res (Z.of_nat n) v), lg (Z.of_nat n) v)) ->
  run_rounds fuel P (mapi g 0 vs) = Finished (mapi res 0 vs) (mapi lg 0 vs).
Proof.
  intros H.
  assert (Adv : advance P 0 (mapi g 0 vs) =
                mapi (fun r v => (Returned (res r v), lg r v)) 0 vs).
  { rewrite advance_mapi. now apply mapi_ext_pos. }
  rewrite (run_rounds_returned fuel P _ (mapi res 0 vs)).
  - rewrite Adv, map_mapi. reflexivity.
  - rewrite Adv. clear. generalize 0.
    induction vs as [|v l IH]; intros me; simpl; auto.
  - rewrite Adv. clear. generalize 0.
    induction vs as [|v l IH]; intros me; simpl; [reflexivity|].
    now rewrite IH.
Qed.

End Rounds.

(** ** All-gather *)

Lemma mapi_length {A B : Type} (f : Z -> A -> B) (me : Z) (l : list A) :
  List.length (mapi f me l) = List.length l.
Proof.
  revert me. induction l as [|a l IH]; intros me; simpl;
    [reflexivity | now rewrite IH].
Qed.

Lemma copy_back_shift (b : Z) (received : list Z) (l : list nat) (t : list Z) :
  fold_left (fun vs i => assign vs i (nth i (b :: received) 0)) (map S l) (b :: t)
  = b :: fold_left (fun vs i => assign vs i (nth i received 0)) l t.
Proof.
  revert t. induction l as [|j l IH]; intros t; simpl; [reflexivity|].
  apply IH.
Qed.

(** The copy loop overwrites every element of [values]. *)
Lemma copy_back_all (values received : list Z) :
  List.length values = List.length received ->
  copy_back values received = received.
Proof.
  unfold copy_back. revert received.
  induction values as [|a t IH]; intros [|b received] H; try discriminate H.
  - reflexivity.
  - cbn [List.length]. rewrite <- cons_seq. cbn [fold_left].
    change (assign (a :: t) 0 (nth 0 (b :: received) 0)) with (b :: t).
    rewrite <- seq_shift, copy_back_shift. f_equal. apply IH.
    now injection H.
Qed.

Lemma to_barrier_gather (P me : Z) (values : list Z) :
  to_barrier P me (gather values) [] =
  if size values =? P then
    (Blocked (MPI_Allgather [nth (Z.to_nat me) values 0] 1 1)
             (fun received =>
                Call Comm_free (fun _ => Ret (copy_back values received))),
     gather_calls me values)
  else (Raised SizeMismatch_gather, [Init_mpi; Comm_size]).
Proof.
  unfold gather, assert. cbn -[size Z.eqb copy_back nth].
  destruct (size values =? P); reflexivity.
Qed.

Lemma contributions_own_slots (me : Z) (vals : list (list Z)) :
  contributions
    (mapi (fun rank values => MPI_Allgather [nth (Z.to_nat rank) values 0] 1 1)
          me vals)
  = Some (own_slots me vals).
Proof.
  unfold own_slots. revert me.
  induction vals as [|v vals IH]; intros me; [reflexivity|].
  cbn [mapi contributions]. rewrite IH. reflexivity.
Qed.

Lemma first_raised_gather (P me : Z) (vals : list (list Z)) :
  Exists (fun values => size values <> P) vals ->
  first_raised (mapi (fun r v => to_barrier P r (gather v) []) me vals)
  = Some SizeMismatch_gather.
Proof.
  revert me. induction vals as [|v vals IH]; intros me H.
  - inversion H.
  - cbn [mapi first_raised]. rewrite to_barrier_gather.
    destruct (Z.eqb_spec (size v) P) as [E | NE]; [|reflexivity].
    apply IH. inversion H; subst; [contradiction | assumption].
Qed.

Lemma map_as_mapi {A B : Type} (f : A -> B) (l : list A) :
  map (fun p => (p, @nil call)) (map f l) = mapi (fun _ a => (f a, [])) 0 l.
Proof. now rewrite map_map, (mapi_const (fun a => (f a, @nil call))). Qed.

(** C5: in a job where every rank calls [gather] (rank [i] with the
    [i]-th vector of [vals]): if every vector has one slot per rank, every
    rank sends its own slot, and every rank returns with its vector replaced
    by the own slots of all ranks in rank order; if some vector has another
    length, the job stops at the assertion
    [values.size() == num_processes()]. *)
Theorem gather_all_ranks (vals : list (list Z)) (fuel : nat) :
  vals <> [] ->
  (Forall (fun values => size values = size vals) vals ->
   run_job (S fuel) (map gather vals) =
   Finished (map (fun _ => own_slots 0 vals) vals)
            (mapi (fun rank values => gather_calls rank values ++ [Comm_free])
                  0 vals)) /\
  (Exists (fun values => size values <> size vals) vals ->
   exists logs,
     run_job fuel (map gather vals) = Aborted SizeMismatch_gather logs).
Proof.
  intros Hne. unfold run_job. rewrite size_map, map_as_mapi. split.
  - intros Hall. rewrite Forall_forall in Hall.
    rewrite (run_rounds_collective
               (fun r v => MPI_Allgather [nth (Z.to_nat r) v 0] 1 1)
               (fun r v received =>
                  Call Comm_free (fun _ => Ret (copy_back v received)))
               gather_calls fuel (size vals) _
               (fun _ _ => own_slots 0 vals) vals Hne).
    + rewrite (run_rounds_all_return
                 (fun r v => gather_calls r v ++ [Comm_free]) fuel (size vals) _
                 (fun r v => copy_back v (own_slots 0 vals))).
      * f_equal. rewrite <- (mapi_const (fun _ => own_slots 0 vals) 0).
        apply mapi_ext_pos. intros n v Hn. apply copy_back_all.
        unfold own_slots. rewrite mapi_length.
        specialize (Hall v (nth_error_In _ _ Hn)). unfold size in Hall. lia.
      * intros n v Hn. reflexivity.
    + intros n v Hn. cbn [fst snd]. rewrite to_barrier_gather.
      now rewrite (Hall v (nth_error_In _ _ Hn)), Z.eqb_refl.
    + intros n v Hn. cbn [deliver].
      now rewrite contributions_own_slots.
  - intros Hbad. eexists. apply run_rounds_raised.
    rewrite advance_mapi. cbn [fst snd]. now apply first_raised_gather.
Qed.

Lemma gather_all_ranks_witness :
  run_job 1 [gather [10; 0; 0]; gather [0; 20; 0]; gather [0; 0; 30]] =
  Finished [[10; 20; 30]; [10; 20; 30]; [10; 20; 30]]
           (mapi (fun rank values => gather_calls rank values ++ [Comm_free])
                 0 [[10; 0; 0]; [0; 20; 0]; [0; 0; 30]]) /\
  exists logs,
    run_job 1 [gather [10; 0; 0]; gather [0; 20]; gather [0; 0; 30]] =
    Aborted SizeMismatch_gather logs.
Proof.
  split.
  - apply (gather_all_ranks [[10; 0; 0]; [0; 20; 0]; [0; 0; 30]] 0).
    + discriminate.
    + repeat constructor.
  - apply (gather_all_ranks [[10; 0; 0]; [0; 20]; [0; 0; 30]] 1).
    + discriminate.
    + apply Exists_cons_tl, Exists_cons_hd. discriminate.
Defined.

(** ** Scatter *)

Lemma to_int_of_int (v : Z) : UInt.in_range v -> UInt.of_int (UInt.to_int v) = v.
Proof.
  unfold UInt.in_range, UInt.of_int, UInt.to_int, UInt.wrap, UInt.modulus.
  intros H. destruct (Z.ltb_spec v (2 ^ 31)).
  - apply Z.mod_small. lia.
  - replace (v - 2 ^ 32) with (v + (-1) * 2 ^ 32) by lia.
    rewrite Z.mod_add by lia. apply Z.mod_small. lia.
Qed.

Lemma to_barrier_scatter (P me sender : Z) (values : list Z) :
  to_barrier P me (scatter values sender) [] =
  if (me =? sender) && negb (size values =? P) then
    (Raised SizeMismatch_scatter,
     [Comm_dup; Init_mpi; Comm_rank; Init_mpi; Comm_size])
  else
    (Blocked (scatter_request sender me values)
       (fun received =>
          Call Comm_free
            (fun _ => Ret [UInt.of_int (UInt.to_int (hd 0 received))])),
     scatter_calls sender me values).
Proof.
  unfold scatter, scatter_calls, scatter_request.
  cbn -[size Z.eqb copy_out UInt.of_int UInt.to_int].
  destruct (me =? sender); cbn -[size Z.eqb copy_out UInt.of_int UInt.to_int];
    [|reflexivity].
  destruct (size values =? P); reflexivity.
Qed.

Lemma first_raised_scatter (P sender me : Z) (vals : list (list Z)) (values : list Z) :
  me <= sender ->
  nth_error vals (Z.to_nat (sender - me)) = Some values ->
  size values <> P ->
  first_raised (mapi (fun r v => to_barrier P r (scatter v sender) []) me vals)
  = Some SizeMismatch_scatter.
Proof.
  revert me. induction vals as [|v vals IH]; intros me Hle Hnth Hsize.
  - destruct (Z.to_nat (sender - me)); discriminate Hnth.
  - cbn [mapi first_raised]. rewrite to_barrier_scatter.
    destruct (Z.eqb_spec me sender) as [E | NE].
    + subst me. rewrite Z.sub_diag in Hnth. injection Hnth as ->.
      destruct (Z.eqb_spec (size values) P); [contradiction | reflexivity].
    + cbn [andb]. apply IH; [lia | | exact Hsize].
      replace (Z.to_nat (sender - me)) with (S (Z.to_nat (sender - (me + 1))))
        in Hnth by lia.
      exact Hnth.
Qed.

(** When the sender's vector does not have one value per rank, the job
    stops at the sender's size check; the sender has not called
    [MPI_Scatter], so nothing is delivered to any rank. *)
Lemma scatter_size_mismatch (vals : list (list Z)) (sender : nat)
  (values : list Z) (fuel : nat) :
  nth_error vals sender = Some values ->
  size values <> size vals ->
  run_job fuel (map (fun v => scatter v (Z.of_nat sender)) vals) =
  Aborted SizeMismatch_scatter
          (mapi (scatter_calls_refused (Z.of_nat sender)) 0 vals).
Proof.
  intros Hnth Hsize. unfold run_job. rewrite size_map, map_as_mapi.
  rewrite (run_rounds_raised fuel _ _ SizeMismatch_scatter).
  - f_equal. rewrite advance_mapi, map_mapi. cbn [fst snd].
    apply mapi_ext_pos. intros n v Hn. rewrite to_barrier_scatter.
    unfold scatter_calls_refused. rewrite Z.add_0_l.
    destruct (Z.eqb_spec (Z.of_nat n) (Z.of_nat sender)) as [E | NE];
      [|reflexivity].
    apply Nat2Z.inj in E. subst n.
    assert (v = values) by congruence. subst v.
    destruct (Z.eqb_spec (size values) (size vals)); [contradiction | reflexivity].
  - rewrite advance_mapi. cbn [fst snd].
    apply (first_raised_scatter _ _ _ _ values); [lia | | exact Hsize].
    now rewrite Z.sub_0_r, Nat2Z.id.
Qed.

(** C4, second half, fails on the code: [scatter] passes
    [values.size()] where [MPI_Scatter] expects the number of elements sent to
    EACH rank.  With two or more ranks and a sender's vector of one value per
    rank, every rank is sent as many elements as there are ranks into a
    receive buffer of one, the library rejects the call and no rank ends the
    call with its value. *)
Theorem scatter_sendcount_rejected (vals : list (list Z)) (sender : nat)
  (values : list Z) (fuel : nat) :
  nth_error vals sender = Some values ->
  size values = size vals ->
  2 <= size vals ->
  run_job (S fuel) (map (fun v => scatter v (Z.of_nat sender)) vals) =
  Aborted (FabricError "MPI_ERR_TRUNCATE")
          (mapi (scatter_calls (Z.of_nat sender)) 0 vals).
Proof.
  intros Hnth Hsize HP. unfold run_job. rewrite size_map, map_as_mapi.
  apply (run_rounds_rejected
           (scatter_request (Z.of_nat sender))
           (fun _ _ received =>
              Call Comm_free
                (fun _ => Ret [UInt.of_int (UInt.to_int (hd 0 received))]))).
  - intros n v Hn. cbn [fst snd]. rewrite to_barrier_scatter.
    destruct (Z.eqb_spec (Z.of_nat n) (Z.of_nat sender)) as [E | NE];
      [|reflexivity].
    apply Nat2Z.inj in E. subst n.
    assert (v = values) by congruence. subst v.
    now rewrite Hsize, Z.eqb_refl.
  - intros v Hv.
    assert (Root : nth_error (mapi (scatter_request (Z.of_nat sender)) 0 vals)
                     (Z.to_nat (Z.of_nat sender))
                   = Some (MPI_Scatter (Some (copy_out values)) (size values) 1
                                       (Z.of_nat sender))).
    { rewrite Nat2Z.id, (nth_error_mapi _ 0 vals sender values Hnth).
      unfold scatter_request. now rewrite Z.add_0_l, Z.eqb_refl. }
    assert (Count : (size values =? 1) = false)
      by (apply Z.eqb_neq; lia).
    unfold scatter_request at 2.
    destruct (0 =? Z.of_nat sender); cbn [deliver];
      now rewrite Root, Z.eqb_refl, Count.
  - intros ->. unfold size in HP. simpl in HP. lia.
Qed.

Lemma scatter_sendcount_rejected_witness :
  run_job 1 [scatter [10; 20] 0; scatter [] 0] =
  Aborted (FabricError "MPI_ERR_TRUNCATE")
          [[Comm_dup; Init_mpi; Comm_rank; Init_mpi; Comm_size;
            MPI_Scatter (Some [10; 20]) 2 1 0];
           [Comm_dup; Init_mpi; Comm_rank; MPI_Scatter None 0 1 0]].
Proof.
  apply (scatter_sendcount_rejected [[10; 20]; []] 0 [10; 20] 0).
  - reflexivity.
  - reflexivity.
  - unfold size. simpl. lia.
Defined.

(** ** One process *)

Lemma scatter_single_process (v : Z) (fuel : nat) :
  UInt.in_range v ->
  run_job (S fuel) [scatter [v] 0] =
  Finished [[v]]
           [[Comm_dup; Init_mpi; Comm_rank; Init_mpi; Comm_size;
             MPI_Scatter (Some [v]) 1 1 0; Comm_free]].
Proof.
  intros Hv. unfold run_job.
  change (run_rounds (S fuel) (size [scatter [v] 0])
            (map (fun p => (p, [])) [scatter [v] 0]))
    with (run_rounds fuel 1
            [(Call Comm_free
                (fun _ => Ret [UInt.of_int (UInt.to_int v)]),
              [Comm_dup; Init_mpi; Comm_rank; Init_mpi; Comm_size;
               MPI_Scatter (Some [v]) 1 1 0])]).
  rewrite (run_rounds_returned fuel _ _ [[UInt.of_int (UInt.to_int v)]])
    by reflexivity.
  now rewrite to_int_of_int.
Qed.

Lemma gather_single_process (v : Z) (fuel : nat) :
  run_job (S fuel) [gather [v]] =
  Finished [[v]]
           [[Init_mpi; Comm_size; Init_mpi; Comm_rank; Comm_dup;
             MPI_Allgather [v] 1 1; Comm_free]].
Proof.
  unfold run_job.
  change (run_rounds (S fuel) (size [gather [v]])
            (map (fun p => (p, [])) [gather [v]]))
    with (run_rounds fuel 1
            [(Call Comm_free (fun _ => Ret [v]),
              [Init_mpi; Comm_size; Init_mpi; Comm_rank; Comm_dup;
               MPI_Allgather [v] 1 1])]).
  now rewrite (run_rounds_returned fuel _ _ [[v]]).
Qed.

Lemma global_maximum_single_process (v : Z) (fuel : nat) :
  run_job (S fuel) [global_maximum v] =
  Finished [v] [[Comm_dup; MPI_Allreduce_max [v] 1; Comm_free]].
Proof.
  unfold run_job.
  change (run_rounds (S fuel) (size [global_maximum v])
            (map (fun p => (p, [])) [global_maximum v]))
    with (run_rounds fuel 1
            [(Call Comm_free (fun _ => Ret v),
              [Comm_dup; MPI_Allreduce_max [v] 1])]).
  now rewrite (run_rounds_returned fuel _ _ [v]).
Qed.

(** C6, as the code has it: with one process, built with MPI, none of the
    three collectives short-circuits: each duplicates the communicator and
    calls the MPI collective ([scatter] and [gather] also initialise MPI
    through the rank and size queries); what it returns is the copy
    ([scatter], [gather]) or the value itself ([global_maximum]).  Built
    without MPI, [gather] and [global_maximum] raise the error "requires
    MPI" instead of copying. *)
Theorem single_process_collectives (v : Z) (fuel : nat) :
  UInt.in_range v ->
  run_job (S fuel) [scatter [v] 0] =
    Finished [[v]]
             [[Comm_dup; Init_mpi; Comm_rank; Init_mpi; Comm_size;
               MPI_Scatter (Some [v]) 1 1 0; Comm_free]] /\
  run_job (S fuel) [gather [v]] =
    Finished [[v]]
             [[Init_mpi; Comm_size; Init_mpi; Comm_rank; Comm_dup;
               MPI_Allgather [v] 1 1; Comm_free]] /\
  run_job (S fuel) [global_maximum v] =
    Finished [v] [[Comm_dup; MPI_Allreduce_max [v] 1; Comm_free]] /\
  run_job fuel [NoMPI.gather [v]] =
    Aborted (DolfinError "MPI::gather() requires MPI.") [[]] /\
  run_job fuel [NoMPI.global_maximum v] =
    Aborted (DolfinError "MPI::global_maximum() requires MPI.") [[]].
Proof.
  intros Hv.
  split; [now apply scatter_single_process|].
  split; [apply gather_single_process|].
  split; [apply global_maximum_single_process|].
  split; unfold run_job; now apply run_rounds_raised.
Qed.

Lemma single_process_collectives_witness :
  UInt.in_range 7 /\
  run_job 1 [scatter [7] 0] =
    Finished [[7]]
             [[Comm_dup; Init_mpi; Comm_rank; Init_mpi; Comm_size;
               MPI_Scatter (Some [7]) 1 1 0; Comm_free]] /\
  run_job 1 [global_maximum 7] =
    Finished [7] [[Comm_dup; MPI_Allreduce_max [7] 1; Comm_free]].
Proof.
  assert (H : UInt.in_range 7) by (unfold UInt.in_range, UInt.modulus; lia).
  split; [exact H|].
  destruct (single_process_collectives 7 0 H) as (Sc & _ & Mx & _).
  exact (conj Sc Mx).
Defined.

(** C6 fails as stated: in a one-process job, no run of [scatter],
    [gather] or [global_maximum] finishes without a call to the library. *)
Lemma single_process_touches_fabric :
  ~ (exists fuel results, run_job fuel [scatter [7] 0] = Finished results [[]]) /\
  ~ (exists fuel results, run_job fuel [gather [7]] = Finished results [[]]) /\
  ~ (exists fuel results, run_job fuel [global_maximum 7] = Finished results [[]]).
Proof.
  assert (H : UInt.in_range 7) by (unfold UInt.in_range, UInt.modulus; lia).
  repeat split; intros ([|fuel] & results & R); try discriminate R.
  - rewrite (scatter_single_process 7 fuel H) in R. discriminate R.
  - rewrite gather_single_process in R. discriminate R.
  - rewrite global_maximum_single_process in R. discriminate R.
Qed.

(** * Further properties of the code *)

(** ** The index partitioner *)

(** X1: the ranges of two ranks, the lower one first, lie in [[0, N]] one
    after the other; none of the bounds has wrapped. *)
Theorem local_range_ordered (N P r1 r2 : Z) :
  0 <= N < UInt.modulus -> 1 <= P -> 0 <= r1 -> r1 < r2 -> r2 < P ->
  exists a b c d,
    run_local P r1 (local_range N) = Returned (a, b) /\
    run_local P r2 (local_range N) = Returned (c, d) /\
    0 <= a /\ a <= b /\ b <= c /\ c <= d /\ d <= N.
Proof.
  intros HN HP H1 H12 H2.
  exists (start N P r1), (start N P (r1 + 1)),
         (start N P r2), (start N P (r2 + 1)).
  split; [apply run_local_range; lia|].
  split; [apply run_local_range; lia|].
  pose proof (start_le_N N P r1 (proj1 HN) HP ltac:(lia)).
  pose proof (start_le_N N P (r2 + 1) (proj1 HN) HP ltac:(lia)).
  pose proof (start_mono N P r1 (r1 + 1) (proj1 HN) HP ltac:(lia)).
  pose proof (start_mono N P (r1 + 1) r2 (proj1 HN) HP ltac:(lia)).
  pose proof (start_mono N P r2 (r2 + 1) (proj1 HN) HP ltac:(lia)).
  lia.
Qed.

Lemma local_range_ordered_witness :
  exists a b c d,
    run_local 3 0 (local_range 10) = Returned (a, b) /\
    run_local 3 2 (local_range 10) = Returned (c, d) /\
    0 <= a /\ a <= b /\ b <= c /\ c <= d /\ d <= 10.
Proof.
  apply (local_range_ordered 10 3 0 2); unfold UInt.modulus; lia.
Defined.



(** X3: when the number of ranks divides the number of items, every rank
    gets [N / P] consecutive items and item [i] belongs to rank
    [i / (N / P)]. *)
Theorem evenly_divided (N P rank i : Z) :
  0 < N < UInt.modulus -> 1 <= P -> N mod P = 0 ->
  0 <= rank < P -> 0 <= i < N ->
  run_local P rank (local_range N) =
    Returned (rank * (N / P), (rank + 1) * (N / P)) /\
  run_local P rank (index_owner i N) = Returned (i / (N / P)).
Proof.
  intros HN HP Hm Hr Hi.
  destruct (div_mod_facts N P ltac:(lia) HP) as (E & _ & Hn).
  split.
  - rewrite run_local_range by lia. unfold start. rewrite Hm.
    do 2 f_equal; lia.
  - destruct (run_index_owner N P rank i ltac:(lia) HP Hi)
      as (owner & Run & Ho & Hin).
    rewrite Run. f_equal. unfold start in Hin. rewrite Hm in Hin.
    apply (Z.div_unique_pos _ _ _ (i - owner * (N / P))); nia.
Qed.

Lemma evenly_divided_witness :
  run_local 3 1 (local_range 12) = Returned (1 * (12 / 3), (1 + 1) * (12 / 3)) /\
  run_local 3 1 (index_owner 7 12) = Returned (7 / (12 / 3)).
Proof.
  apply (evenly_divided 12 3 1 7); unfold UInt.modulus; try lia.
  reflexivity.
Defined.

(** X4: the owner never decreases when the index grows. *)
Theorem index_owner_monotone (N P me i j : Z) :
  0 <= N < UInt.modulus -> 1 <= P -> 0 <= i -> i <= j -> j < N ->
  exists oi oj,
    run_local P me (index_owner i N) = Returned oi /\
    run_local P me (index_owner j N) = Returned oj /\
    oi <= oj.
Proof.
  intros HN HP Hi Hij Hj.
  destruct (run_index_owner N P me i HN HP ltac:(lia))
    as (oi & Ri & Hoi & Ini).
  destruct (run_index_owner N P me j HN HP ltac:(lia))
    as (oj & Rj & Hoj & Inj).
  exists oi, oj. split; [exact Ri|]. split; [exact Rj|].
  destruct (Z_le_gt_dec oi oj) as [|G]; [assumption | exfalso].
  assert (start N P (oj + 1) <= start N P oi)
    by (apply start_mono; lia).
  lia.
Qed.

Lemma index_owner_monotone_witness :
  exists oi oj,
    run_local 3 0 (index_owner 3 10) = Returned oi /\
    run_local 3 0 (index_owner 7 10) = Returned oj /\
    oi <= oj.
Proof.
  apply (index_owner_monotone 10 3 0 3 7); unfold UInt.modulus; lia.
Defined.

(** X5: neither [local_range] nor [index_owner] communicates, whatever
    the arguments: they only initialise MPI and ask for the size (and
    [local_range] for the rank), never enter a collective, and
    [index_owner] gives every rank the same answer. *)
Theorem partitioner_does_not_communicate (N P me me' index : Z) :
  calls_of P me (local_range N) = [Init_mpi; Comm_size; Init_mpi; Comm_rank] /\
  calls_of P me (index_owner index N) =
    (if index <? N then [Init_mpi; Comm_size] else []) /\
  (forall c k, run_local P me (local_range N) <> Blocked c k) /\
  (forall c k, run_local P me (index_owner index N) <> Blocked c k) /\
  run_local P me (index_owner index N) = run_local P me' (index_owner index N).
Proof.
  unfold calls_of, run_local, local_range, index_owner, assert, udiv, umod.
  cbn -[UInt.mul UInt.add UInt.sub Z.div Z.modulo Z.ltb Z.eqb].
  destruct (index <? N); cbn -[UInt.mul UInt.add UInt.sub Z.div Z.modulo Z.ltb Z.eqb];
    destruct (P =? 0); cbn -[UInt.mul UInt.add UInt.sub Z.div Z.modulo Z.ltb Z.eqb];
    repeat match goal with
           | |- context [if ?b then _ else _] =>
               destruct b;
               cbn -[UInt.mul UInt.add UInt.sub Z.div Z.modulo Z.ltb Z.eqb]
           end;
    repeat split; intros; discriminate.
Qed.



(** ** All-reduce-max on any number of ranks *)

Lemma fold_max_ge_init (l : list Z) (a : Z) : a <= fold_left Z.max l a.
Proof.
  revert a. induction l as [|b l IH]; intros a; simpl; [lia|].
  specialize (IH (Z.max a b)). lia.
Qed.

Lemma fold_max_ge_all (l : list Z) (a : Z) :
  Forall (fun v => v <= fold_left Z.max l a) l.
Proof.
  revert a. induction l as [|b l IH]; intros a; simpl; constructor.
  - pose proof (fold_max_ge_init l (Z.max a b)). lia.
  - apply IH.
Qed.

Lemma fold_max_in (l : list Z) (a : Z) : In (fold_left Z.max l a) (a :: l).
Proof.
  revert a. induction l as [|b l IH]; intros a; simpl; [now left|].
  destruct (IH (Z.max a b)) as [E | Hin].
  - rewrite <- E. destruct (Z.max_spec a b) as [[_ ->] | [_ ->]]; auto.
  - right. now right.
Qed.

Lemma operands_mapi (me : Z) (vs : list Z) :
  operands (mapi (fun _ v => MPI_Allreduce_max [v] 1) me vs) = Some vs.
Proof.
  revert me. induction vs as [|v vs IH]; intros me; [reflexivity|].
  cbn [mapi operands]. now rewrite IH.
Qed.

(** X7: in a job where every rank calls [global_maximum] (rank [i] with
    the [i]-th value of [vs]), every rank returns the same value; it is one of
    the contributions and none of them exceeds it.  Each rank duplicates the
    communicator, makes the one collective call and frees the
    communicator. *)
Theorem global_maximum_all_ranks (vs : list Z) (fuel : nat) :
  vs <> [] ->
  exists m,
    run_job (S fuel) (map global_maximum vs) =
      Finished (map (fun _ => m) vs) (map global_maximum_calls vs) /\
    In m vs /\
    Forall (fun v => v <= m) vs.
Proof.
  intros Hne. exists (hd 0 (maximum vs)). split.
  - unfold run_job. rewrite size_map, map_as_mapi.
    rewrite (run_rounds_collective
               (fun _ v => MPI_Allreduce_max [v] 1)
               (fun _ _ received => Call Comm_free (fun _ => Ret (hd 0 received)))
               (fun _ v => [Comm_dup; MPI_Allreduce_max [v] 1])
               fuel (size vs) _ (fun _ _ => maximum vs) vs Hne).
    + rewrite (run_rounds_all_return
                 (fun _ v => global_maximum_calls v) fuel (size vs) _
                 (fun _ _ => hd 0 (maximum vs))).
      * now rewrite !mapi_const.
      * intros n v Hn. reflexivity.
    + intros n v Hn. reflexivity.
    + intros n v Hn. cbn [deliver]. now rewrite operands_mapi.
  - destruct vs as [|a l]; [congruence|]. cbn [maximum hd]. split.
    + apply fold_max_in.
    + constructor; [apply fold_max_ge_init | apply fold_max_ge_all].
Qed.

Lemma global_maximum_all_ranks_witness :
  exists m,
    run_job 1 (map global_maximum [5; 9; 3]) =
      Finished (map (fun _ => m) [5; 9; 3])
               (map global_maximum_calls [5; 9; 3]) /\
    In m [5; 9; 3] /\
    Forall (fun v => v <= m) [5; 9; 3].
Proof. apply (global_maximum_all_ranks [5; 9; 3] 0). discriminate. Defined.

(** ** Sequencing on one rank *)

(** The calls a function makes are appended to the record it starts
    with. *)
Lemma to_barrier_log {A : Type} (P me : Z) (p : prog A) (log : list call) :
  to_barrier P me p log =
  (fst (to_barrier P me p []), log ++ snd (to_barrier P me p [])).
Proof.
  revert log. induction p as [a | e | c k IH]; intros log; simpl.
  - now rewrite app_nil_r.
  - now rewrite app_nil_r.
  - destruct (is_collective c); [reflexivity|].
    rewrite (IH _ (log ++ [c])), (IH _ [c]). simpl.
    now rewrite <- app_assoc.
Qed.

(** Running [p] and then [f] on its result: a rank that stops in [p] at
    a collective goes on with the rest of [p] and then [f]. *)
Lemma to_barrier_bind {A B : Type} (P me : Z) (p : prog A) (f : A -> prog B)
  (log : list call) :
  to_barrier P me (bind p f) log =
  match to_barrier P me p log with
  | (Returned a, log') => to_barrier P me (f a) log'
  | (Raised e, log') => (Raised e, log')
  | (Blocked c k, log') => (Blocked c (fun reply => bind (k reply) f), log')
  end.
Proof.
  revert log. induction p as [a | e | c k IH]; intros log; simpl;
    try reflexivity.
  destruct (is_collective c); [reflexivity | apply IH].
Qed.

(** ** All-gather, twice *)

Lemma own_slot_of_gathered (vals : list (list Z)) (n : nat) (values : list Z) :
  nth_error vals n = Some values ->
  nth n (own_slots 0 vals) 0 = nth n values 0.
Proof.
  intros H. unfold own_slots. apply nth_error_nth.
  rewrite (nth_error_mapi _ 0 vals n values H).
  now rewrite Z.add_0_l, Nat2Z.id.
Qed.

(** X8: [gather] is idempotent.  In a job where every rank's vector has
    one slot per rank, the ranks that call [gather] twice in a row end with
    the vectors that one call leaves: the second call sends the slot the
    first call wrote and changes nothing. *)
Theorem gather_is_idempotent (vals : list (list Z)) (fuel : nat) :
  vals <> [] ->
  Forall (fun values => size values = size vals) vals ->
  exists results logs1 logs2,
    run_job (S fuel) (map gather vals) = Finished results logs1 /\
    run_job (S (S fuel)) (map gather_twice vals) = Finished results logs2 /\
    results = map (fun _ => own_slots 0 vals) vals.
Proof.
  intros Hne Hall. rewrite Forall_forall in Hall.
  set (all := own_slots 0 vals).
  assert (Hlen : forall n v, nth_error vals n = Some v ->
                   List.length v = List.length all).
  { intros n v Hn. unfold all, own_slots. rewrite mapi_length.
    specialize (Hall v (nth_error_In _ _ Hn)). unfold size in Hall. lia. }
  assert (Hsize : size all = size vals).
  { unfold all, own_slots, size. now rewrite mapi_length. }
  assert (Deliver : forall n v, nth_error vals n = Some v ->
            deliver (mapi (fun r v => MPI_Allgather [nth (Z.to_nat r) v 0] 1 1)
                          0 vals)
                    (Z.of_nat n)
                    (MPI_Allgather [nth (Z.to_nat (Z.of_nat n)) v 0] 1 1)
            = inr all).
  { intros n v Hn. cbn [deliver]. now rewrite contributions_own_slots. }
  exists (map (fun _ => all) vals). do 2 eexists.
  split; [|split; [|reflexivity]].
  - (* one call *)
    unfold run_job. rewrite size_map, map_as_mapi.
    rewrite (run_rounds_collective
               (fun r v => MPI_Allgather [nth (Z.to_nat r) v 0] 1 1)
               (fun r v received =>
                  Call Comm_free (fun _ => Ret (copy_back v received)))
               gather_calls fuel (size vals) _ (fun _ _ => all) vals Hne).
    + rewrite (run_rounds_all_return
                 (fun r v => gather_calls r v ++ [Comm_free]) fuel (size vals) _
                 (fun r v => copy_back v all)).
      * f_equal. rewrite <- (mapi_const (fun _ => all) 0).
        apply mapi_ext_pos. intros n v Hn. apply copy_back_all. eauto.
      * intros n v Hn. reflexivity.
    + intros n v Hn. cbn [fst snd]. rewrite to_barrier_gather.
      now rewrite (Hall v (nth_error_In _ _ Hn)), Z.eqb_refl.
    + exact Deliver.
  - (* two calls *)
    unfold run_job. rewrite size_map, map_as_mapi.
    rewrite (run_rounds_collective
               (fun r v => MPI_Allgather [nth (Z.to_nat r) v 0] 1 1)
               (fun r v received =>
                  bind (Call Comm_free (fun _ => Ret (copy_back v received)))
                       gather)
               gather_calls (S fuel) (size vals) _ (fun _ _ => all) vals Hne).
    + rewrite (run_rounds_collective
                 (fun r v => MPI_Allgather [nth (Z.to_nat r) v 0] 1 1)
                 (fun r v received =>
                    Call Comm_free (fun _ => Ret (copy_back all received)))
                 (fun r v => (gather_calls r v ++ [Comm_free]) ++ gather_calls r v)
                 fuel (size vals) _ (fun _ _ => all) vals Hne).
      * rewrite (run_rounds_all_return
                   (fun r v => ((gather_calls r v ++ [Comm_free])
                                  ++ gather_calls r v) ++ [Comm_free])
                   fuel (size vals) _ (fun r v => copy_back all all)).
        -- f_equal. rewrite mapi_const. apply map_ext.
           intros _. now apply copy_back_all.
        -- intros n v Hn. reflexivity.
      * intros n v Hn. cbn [fst snd].
        change (to_barrier (size vals) (Z.of_nat n)
                  (bind (Call Comm_free (fun _ => Ret (copy_back v all))) gather)
                  (gather_calls (Z.of_nat n) v))
          with (to_barrier (size vals) (Z.of_nat n) (gather (copy_back v all))
                  (gather_calls (Z.of_nat n) v ++ [Comm_free])).
        rewrite (copy_back_all v all) by eauto.
        rewrite to_barrier_log, to_barrier_gather, Hsize, Z.eqb_refl.
        cbn [fst snd]. unfold gather_calls.
        rewrite Nat2Z.id.
        change (nth n all 0) with (nth n (own_slots 0 vals) 0).
        now rewrite (own_slot_of_gathered vals n v Hn).
      * exact Deliver.
    + intros n v Hn. cbn [fst snd]. unfold gather_twice.
      rewrite to_barrier_bind, to_barrier_gather.
      now rewrite (Hall v (nth_error_In _ _ Hn)), Z.eqb_refl.
    + exact Deliver.
Qed.

Lemma gather_is_idempotent_witness :
  exists results logs1 logs2,
    run_job 1 (map gather [[10; 0; 0]; [0; 20; 0]; [0; 0; 30]])
      = Finished results logs1 /\
    run_job 2 (map gather_twice [[10; 0; 0]; [0; 20; 0]; [0; 0; 30]])
      = Finished results logs2 /\
    results = map (fun _ => own_slots 0 [[10; 0; 0]; [0; 20; 0]; [0; 0; 30]])
                  [[10; 0; 0]; [0; 20; 0]; [0; 0; 30]].
Proof.
  apply (gather_is_idempotent [[10; 0; 0]; [0; 20; 0]; [0; 0; 30]] 0).
  - discriminate.
  - repeat constructor.
Defined.

(** ** Scatter: what the sender checks and what the others supply *)

(** X9: when the vector of the sending rank does not have exactly one
    value per rank, the job stops with the error of the sender's size check;
    the sender has duplicated the communicator and asked for its rank and the
    size, but has not called [MPI_Scatter]. *)
Theorem scatter_refuses_wrong_length (vals : list (list Z)) (sender : nat)
  (values : list Z) (fuel : nat) :
  nth_error vals sender = Some values ->
  size values <> size vals ->
  run_job fuel (map (fun v => scatter v (Z.of_nat sender)) vals) =
    Aborted SizeMismatch_scatter
            (mapi (scatter_calls_refused (Z.of_nat sender)) 0 vals) /\
  nth_error (mapi (scatter_calls_refused (Z.of_nat sender)) 0 vals) sender =
    Some [Comm_dup; Init_mpi; Comm_rank; Init_mpi; Comm_size].
Proof.
  intros Hnth Hsize. split; [now apply (scatter_size_mismatch _ _ values)|].
  rewrite (nth_error_mapi _ 0 vals sender values Hnth).
  unfold scatter_calls_refused. now rewrite Z.add_0_l, Z.eqb_refl.
Qed.

Lemma scatter_refuses_wrong_length_witness :
  run_job 1 (map (fun v => scatter v (Z.of_nat 0)) [[1; 2]; []; []]) =
    Aborted SizeMismatch_scatter
            (mapi (scatter_calls_refused (Z.of_nat 0)) 0 [[1; 2]; []; []]) /\
  nth_error (mapi (scatter_calls_refused (Z.of_nat 0)) 0 [[1; 2]; []; []]) 0 =
    Some [Comm_dup; Init_mpi; Comm_rank; Init_mpi; Comm_size].
Proof.
  apply (scatter_refuses_wrong_length [[1; 2]; []; []] 0 [1; 2] 1).
  - reflexivity.
  - unfold size. simpl. lia.
Defined.

Lemma run_rounds_ext {A : Type} (fuel : nat) (P : Z)
  (ps ps' : list (prog A * list call)) :
  advance P 0 ps = advance P 0 ps' ->
  run_rounds fuel P ps = run_rounds fuel P ps'.
Proof. intros H. destruct fuel; simpl; rewrite H; reflexivity. Qed.

Lemma mapi_ext_two {A B : Type} (f : Z -> A -> B) (me : Z) (l l' : list A) :
  List.length l = List.length l' ->
  (forall n v v', nth_error l n = Some v -> nth_error l' n = Some v' ->
     f (me + Z.of_nat n) v = f (me + Z.of_nat n) v') ->
  mapi f me l = mapi f me l'.
Proof.
  revert me l'. induction l as [|a l IH]; intros me [|a' l'] Hlen H;
    try discriminate Hlen; simpl; [reflexivity|].
  f_equal.
  - specialize (H 0%nat a a' eq_refl eq_refl). now rewrite Z.add_0_r in H.
  - apply IH; [now injection Hlen|].
    intros n v v' Hv Hv'. specialize (H (S n) v v' Hv Hv').
    now replace (me + 1 + Z.of_nat n) with (me + Z.of_nat (S n)) by lia.
Qed.

(** X10: the ranks that do not send supply no input to [scatter]: two
    jobs of the same size in which the sending rank holds the same vector end
    the same way, whatever the other ranks' vectors hold. *)
Theorem scatter_ignores_other_inputs (vals vals' : list (list Z))
  (sender : nat) (fuel : nat) :
  List.length vals = List.length vals' ->
  nth_error vals sender = nth_error vals' sender ->
  run_job fuel (map (fun v => scatter v (Z.of_nat sender)) vals) =
  run_job fuel (map (fun v => scatter v (Z.of_nat sender)) vals').
Proof.
  intros Hlen Hs. unfold run_job. rewrite !size_map, !map_as_mapi.
  assert (HP : size vals = size vals') by (unfold size; now rewrite Hlen).
  rewrite HP. apply run_rounds_ext. rewrite !advance_mapi. cbn [fst snd].
  apply mapi_ext_two; [exact Hlen|].
  intros n v v' Hv Hv'. rewrite !to_barrier_scatter, Z.add_0_l.
  destruct (Z.eqb_spec (Z.of_nat n) (Z.of_nat sender)) as [E | NE].
  - apply Nat2Z.inj in E. subst n.
    assert (v = v') by congruence. now subst v'.
  - cbn [andb]. unfold scatter_calls, scatter_request.
    destruct (Z.eqb_spec (Z.of_nat n) (Z.of_nat sender)); [contradiction|].
    reflexivity.
Qed.

Lemma scatter_ignores_other_inputs_witness :
  run_job 1 (map (fun v => scatter v (Z.of_nat 1)) [[1; 2]; [5; 6; 7]]) =
  run_job 1 (map (fun v => scatter v (Z.of_nat 1)) [[]; [5; 6; 7]]).
Proof.
  apply (scatter_ignores_other_inputs [[1; 2]; [5; 6; 7]] [[]; [5; 6; 7]] 1 1);
    reflexivity.
Defined.

(** ** Mesh extraction: contents *)

Section MeshContents.

Context {double : Type} (dzero : double).

Implicit Types (mesh : Mesh double) (this : LocalMeshData double).

(** X11: [extract_mesh_data] copies the mesh faithfully: the record holds
    the coordinates and the index of every vertex and the vertex list of every
    cell, in the order the mesh iterates over them, so that the record alone
    gives back the mesh's vertices and cells. *)
Theorem extract_mesh_data_contents this mesh :
  Mesh_wf mesh ->
  let d := extract_mesh_data dzero this mesh in
  vertex_coordinates d = map x (vertices mesh) /\
  vertex_indices d = map index (vertices mesh) /\
  cell_vertices d = map entities0 (cells mesh) /\
  reassemble [d] = mesh_contents mesh.
Proof.
  intros Hwf. cbv zeta.
  split; [|split; [|split]].
  - rewrite extract_mesh_data_fields. cbn. destruct Hwf as (_ & _ & Hx).
    apply map_ext_in. intros v Hin. rewrite Forall_forall in Hx.
    now apply coordinates_of_exact, Hx.
  - now rewrite extract_mesh_data_fields.
  - now rewrite extract_mesh_data_fields.
  - exact (reassemble_extracted dzero this mesh 0 Hwf).
Qed.

(** X12: [extract_mesh_data] overwrites: what the record held before,
    even the extract of another mesh, leaves no trace in the result. *)
Theorem extract_mesh_data_overwrites this this' mesh mesh' :
  extract_mesh_data dzero (extract_mesh_data dzero this mesh') mesh =
  extract_mesh_data dzero this' mesh.
Proof. now rewrite !(extract_mesh_data_fields dzero _ mesh). Qed.

End MeshContents.

Lemma extract_mesh_data_contents_witness :
  Mesh_wf interval_mesh /\
  let d := extract_mesh_data 0 LocalMeshData_new interval_mesh in
  vertex_coordinates d = map x (vertices interval_mesh) /\
  vertex_indices d = map index (vertices interval_mesh) /\
  cell_vertices d = map entities0 (cells interval_mesh) /\
  reassemble [d] = mesh_contents interval_mesh.
Proof.
  split; [repeat split; repeat constructor|].
  apply (extract_mesh_data_contents 0 LocalMeshData_new interval_mesh).
  repeat split; repeat constructor.
Defined.

(** ** The collection of function spaces *)

Section CCFEMProofs.

Context {FunctionSpace : Type} (dim : FunctionSpace -> Z).

Implicit Types (this : CCFEM.CCFEMFunctionSpace FunctionSpace)
               (spaces : list FunctionSpace) (out : list CCFEM.log_record).

(** X13: adding spaces one after the other keeps the spaces already
    there, appends the new ones in the order of the calls, and each call logs
    the number of parts the space has after it. *)
Theorem add_all_appends this spaces out :
  fst (CCFEM.add_all this spaces out) =
    CCFEM.mkCCFEMFunctionSpace (CCFEM._function_spaces this ++ spaces) /\
  snd (CCFEM.add_all this spaces out) =
    out ++ mapi (fun k _ =>
                   CCFEM.PROGRESS
                     "Added function space to CCFEM space; space has %d part(s)."
                     [size (CCFEM._function_spaces this) + k + 1])
                0 spaces.
Proof.
  unfold CCFEM.add_all.
  assert (G : forall spaces fs out0 (k : Z),
    fold_left (fun st V => CCFEM.add (fst st) V (snd st)) spaces
              (CCFEM.mkCCFEMFunctionSpace fs, out0) =
    (CCFEM.mkCCFEMFunctionSpace (fs ++ spaces),
     out0 ++ mapi (fun j _ =>
                     CCFEM.PROGRESS
                       "Added function space to CCFEM space; space has %d part(s)."
                       [size fs + (j - k) + 1])
                  k spaces)).
  { clear. induction spaces as [|V spaces IH]; intros fs out0 k; simpl.
    - now rewrite !app_nil_r.
    - unfold CCFEM.add at 2. cbn [fst snd CCFEM._function_spaces].
      rewrite (IH _ _ (k + 1)), <- !app_assoc. f_equal. simpl. f_equal.
      f_equal.
      + do 2 f_equal. unfold size. rewrite length_app. simpl. lia.
      + apply mapi_ext_pos. intros n v _. do 2 f_equal.
        unfold size. rewrite length_app. simpl. lia. }
  destruct this as [fs]. rewrite (G spaces fs out 0). cbn [fst snd CCFEM._function_spaces].
  split; [reflexivity|]. f_equal. apply mapi_ext_pos.
  intros n v _. do 2 f_equal. lia.
Qed.

Lemma printed_by_d_small (v : Z) :
  0 <= v < 2 ^ 31 -> CCFEM.printed_by_d v = v.
Proof.
  intros H. unfold CCFEM.printed_by_d, UInt.to_int, UInt.wrap, UInt.modulus.
  rewrite Z.mod_small by lia.
  destruct (Z.ltb_spec v (2 ^ 31)); lia.
Qed.


End CCFEMProofs.

